(** * Chat server of socket.io_backend: shallow embedding of [src/server.ts]

    The chat part of [server.ts] registers, for every connection, one
    packet middleware ([socket.use]), one ['error'] listener, seven
    listeners for client events and one ['disconnect'] listener.  All of
    its state lives in the Socket.IO namespace: the table of connected
    sockets (each with its mutable [data] bag) and the in-memory adapter
    that maps a room name to the set of socket ids that joined it.

    The embedding keeps that shape: a [Server] record holds the socket
    table and the room table, every listener is a function from a server
    state to a new state and the list of effects it produced, and the
    Socket.IO primitives the listeners call are written out next to them,
    as Socket.IO 4 with its default in-memory adapter performs them:

    - a socket joins the room named by its own id when it connects;
    - [socket.join(r)] adds the socket to the set of room [r], and nothing
      in [server.ts] ever leaves a room before the socket closes;
    - [chatIO.in(r)] addresses the sockets of room [r]; [socket.to(r)]
      addresses them too and excepts the room named [socket.id], and the
      adapter skips every socket found in an excepted room;
    - a packet first runs the middleware; [next(err)] hands [err] to the
      ['error'] listener and the listener of the event is not called;
    - closing a socket makes it leave all its rooms and the namespace, and
      only then calls the ['disconnect'] listener.

    A listener runs to completion before the next packet is taken: the
    [await] on [fetchSockets] is answered by the adapter from its own
    tables, and interleavings at that point are not modelled.  The
    [console.log] calls are left out. *)

From stdpp Require Import gmap strings list fin_maps.

Open Scope string_scope.
Open Scope list_scope.

(** ** Payloads *)

Abbreviation SocketId := string (only parsing).
Abbreviation Room := string (only parsing).

(** [interface ChatMessage] *)
Record ChatMessage := {
  messageId : string;
  room : string;
  author : string;
  message : string;
  time : string
}.

(** One element of the [online_users] payload:
    [Object.entries(users).map(([username, socketId]) => ({ username, socketId }))]. *)
Record PresenceEntry := {
  username : string;
  socketId : SocketId
}.

#[global] Instance ChatMessage_eq_dec : EqDecision ChatMessage.
Proof. solve_decision. Defined.
#[global] Instance PresenceEntry_eq_dec : EqDecision PresenceEntry.
Proof. solve_decision. Defined.

(** ** The [users] object: [Record<string, string>]

    [users] starts as the literal [{}] and is only written through
    [users[key] = value].  An ordinary JavaScript object enumerates its own
    string keys with the array indices first, in ascending numeric order,
    and the remaining keys in the order of their creation; writing an
    existing key keeps its position.  The key ["__proto__"] is not stored:
    on an object literal it reaches the accessor of [Object.prototype],
    which ignores a string value. *)

Abbreviation JsRecord := (list (string * string)) (only parsing).

Definition is_digit (c : Ascii.ascii) : bool :=
  let n := Ascii.nat_of_ascii c in (48 <=? n)%nat && (n <=? 57)%nat.

Fixpoint digits_value (acc : N) (s : string) : option N :=
  match s with
  | EmptyString => Some acc
  | String c s' =>
      if is_digit c
      then digits_value (acc * 10 + (Ascii.N_of_ascii c - 48))%N s'
      else None
  end.

(** A key is an array index when it is the canonical decimal writing of an
    integer below [2^32 - 1]. *)
Definition array_index (s : string) : option N :=
  match s with
  | EmptyString => None
  | String c s' =>
      if (Ascii.nat_of_ascii c =? 48)%nat && negb (String.eqb s' "") then None
      else match digits_value 0%N s with
           | Some n => if (n <? 4294967295)%N then Some n else None
           | None => None
           end
  end.

(** [key_before k k']: a new key [k] is enumerated before the present key [k']. *)
Definition key_before (k k' : string) : bool :=
  match array_index k, array_index k' with
  | Some n, Some n' => (n <? n')%N
  | Some _, None => true
  | None, _ => false
  end.

Fixpoint js_insert_new (k v : string) (m : JsRecord) : JsRecord :=
  match m with
  | [] => [(k, v)]
  | (k', v') :: m' =>
      if key_before k k' then (k, v) :: m else (k', v') :: js_insert_new k v m'
  end.

Definition js_has (k : string) (m : JsRecord) : bool := bool_decide (k ∈ m.*1).

(** [users[k] = v] *)
Definition js_set (k v : string) (m : JsRecord) : JsRecord :=
  if decide (k = "__proto__") then m
  else if js_has k m
       then (λ kv : string * string, if decide (kv.1 = k) then (k, v) else kv) <$> m
       else js_insert_new k v m.

(** [Object.entries(users).map(([username, socketId]) => ({ username, socketId }))] *)
Definition entries (users : JsRecord) : list PresenceEntry :=
  (λ kv : string * string, {| username := kv.1; socketId := kv.2 |}) <$> users.

(** JavaScript truthiness of a string and of an optional string. *)
Definition truthy (s : string) : bool := negb (String.eqb s "").

Definition truthy_opt (o : option string) : bool :=
  match o with
  | Some s => truthy s
  | None => false
  end.

(** ** Sockets and the namespace *)

(** [socket.data], as the listeners use it. *)
Record SocketData := {
  data_room : option string;
  data_author : option string
}.

Record Socket := {
  id : SocketId;
  handshake_token : option string;   (* socket.handshake.auth.token *)
  data : SocketData
}.

(** The namespace behind [chatIO]: [sockets] is [nsp.sockets]
    ([Map<SocketId, Socket>]) and [rooms] is the adapter's
    [Map<Room, Set<SocketId>>]; a set is kept as the list of its elements in
    insertion order, which is the order in which it is enumerated. *)
Record Server := {
  sockets : gmap SocketId Socket;
  rooms : gmap Room (list SocketId)
}.

Definition chatIO_init : Server := {| sockets := ∅; rooms := ∅ |}.

Definition members (io : Server) (r : Room) : list SocketId :=
  default [] (rooms io !! r).

(** [adapter.addAll(id, {r})]: the room is created when absent and the id is
    added to its set when not yet in it. *)
Definition addAll (sid : SocketId) (r : Room) (io : Server) : Server :=
  {| sockets := sockets io;
     rooms := if bool_decide (sid ∈ members io r) then rooms io
              else <[r := members io r ++ [sid]]> (rooms io) |}.

(** [adapter.delAll(id)]: the id leaves every room; a room left empty is
    deleted. *)
Definition delAll (sid : SocketId) (io : Server) : Server :=
  {| sockets := sockets io;
     rooms := omap (λ l : list SocketId,
                      match filter (λ i, i ≠ sid) l with
                      | [] => None
                      | l' => Some l'
                      end) (rooms io) |}.

(** The adapter's [computeExceptSids(exceptRooms)]: every socket that is in
    one of the excepted rooms. *)
Definition computeExceptSids (io : Server) (except : list Room) : list SocketId :=
  r ← except; members io r.

(** The adapter's [apply(opts, callback)] for one target room, which
    [broadcast] and [fetchSockets] both go through: the sockets of the room,
    in the order of the room's set, without the excepted ones and without
    ids that are no longer in [nsp.sockets]. *)
Definition apply (io : Server) (r : Room) (except : list Room) : list Socket :=
  omap (λ i : SocketId, sockets io !! i)
       (filter (λ i, i ∉ computeExceptSids io except) (members io r)).

(** [chatIO.in(r).fetchSockets()] *)
Definition fetchSockets (io : Server) (r : Room) : list Socket := apply io r [].

(** ** Server to client events and effects *)

Inductive ServerMsg :=
  | status (s : string)
  | online_users (l : list PresenceEntry)
  | user_joined (author0 : string) (socketId0 : SocketId) (users : JsRecord)
  | user_left (author0 : option string) (users : JsRecord)
  | receive_message (m : ChatMessage)
  | user_typing (author0 : string)
  | user_stop_typing (author0 : string)
  | update_read_receipts (messageId0 reader : string)
  | receive_private_message (m : ChatMessage)
  | update_reactions (messageId0 emoji reactor : string).

(** Client to server events for which a listener is registered. *)
Inductive ClientEvent :=
  | join_room (room0 author0 : string)
  | send_message (m : ChatMessage)
  | typing (room0 author0 : string)
  | stop_typing (room0 author0 : string)
  | message_read (room0 messageId0 reader : string)
  | private_message (toSocketId : string) (m : ChatMessage)
  | react_message (room0 messageId0 emoji reactor : string).

#[global] Instance ServerMsg_eq_dec : EqDecision ServerMsg.
Proof. solve_decision. Defined.
#[global] Instance ClientEvent_eq_dec : EqDecision ClientEvent.
Proof. solve_decision. Defined.

(** What one listener run leaves behind.  [Emit rcpts msg] is one [emit]
    call, with the sockets the packet is written to; [Handled sid ev] records
    that the listener registered on socket [sid] for the client event [ev]
    was entered. *)
Inductive Effect :=
  | Emit (recipients : list SocketId) (msg : ServerMsg)
  | Handled (sid : SocketId) (ev : ClientEvent).

#[global] Instance Effect_eq_dec : EqDecision Effect.
Proof. solve_decision. Defined.

(** [socket.emit(msg)] *)
Definition socket_emit (sid : SocketId) (msg : ServerMsg) : Effect :=
  Emit [sid] msg.

(** [chatIO.in(r).emit(msg)]: a broadcast operator with the room [r] and no
    excepted room. *)
Definition in_emit (io : Server) (r : Room) (msg : ServerMsg) : Effect :=
  Emit (id <$> apply io r []) msg.

(** [socket.to(r).emit(msg)]: the broadcast operator of a socket has the
    room [r] and one excepted room, the one named by the socket's own id. *)
Definition to_emit (io : Server) (sid : SocketId) (r : Room) (msg : ServerMsg) : Effect :=
  Emit (id <$> apply io r [sid]) msg.

(** ** Presence *)

(** The body of [clients.forEach(s => { if (s.data.author) users[s.data.author] = s.id })]. *)
Definition add_user (users : JsRecord) (s : Socket) : JsRecord :=
  match data_author (data s) with
  | Some a => if truthy a then js_set a (id s) users else users
  | None => users
  end.

Definition build_users (clients : list Socket) : JsRecord :=
  foldl add_user [] clients.

(** The [users] object and the [online_users] payload a listener computes
    for room [r] in state [io]. *)
Definition users_of (io : Server) (r : Room) : JsRecord :=
  build_users (fetchSockets io r).

Definition presence (io : Server) (r : Room) : list PresenceEntry :=
  entries (users_of io r).

(** ** Listeners *)

(** [socket.data.room = r; socket.data.author = a] on the socket stored
    under [sid]. *)
Definition set_data (sid : SocketId) (d : SocketData) (io : Server) : Server :=
  {| sockets := alter (λ s, {| id := id s;
                               handshake_token := handshake_token s;
                               data := d |}) sid (sockets io);
     rooms := rooms io |}.

(** [socket.on('join_room', ...)] *)
Definition on_join_room (io : Server) (sid : SocketId) (r a : string)
  : Server * list Effect :=
  let io1 := addAll sid r io in
  let io2 := set_data sid {| data_room := Some r; data_author := Some a |} io1 in
  let users := build_users (fetchSockets io2 r) in
  (io2, [in_emit io2 r (online_users (entries users));
         in_emit io2 r (user_joined a sid users)]).

(** The seven listeners for client events. *)
Definition listener (io : Server) (sid : SocketId) (ev : ClientEvent)
  : Server * list Effect :=
  match ev with
  | join_room r a => on_join_room io sid r a
  | send_message m => (io, [to_emit io sid (room m) (receive_message m)])
  | typing r a => (io, [to_emit io sid r (user_typing a)])
  | stop_typing r a => (io, [to_emit io sid r (user_stop_typing a)])
  | message_read r mid reader =>
      (io, [to_emit io sid r (update_read_receipts mid reader)])
  | private_message to m =>
      (io, [to_emit io sid to (receive_private_message m)])
  | react_message r mid emoji reactor =>
      (io, [to_emit io sid r (update_reactions mid emoji reactor)])
  end.

(** [socket.on('disconnect', ...)], run for socket [s] in the state [io]
    reached once the socket has left its rooms and the namespace. *)
Definition on_disconnect (io : Server) (s : Socket) : list Effect :=
  match data_room (data s) with
  | Some r =>
      if truthy r then
        let users := build_users (fetchSockets io r) in
        [in_emit io r (online_users (entries users));
         in_emit io r (user_left (data_author (data s)) users)]
      else []
  | None => []
  end.

(** [socket._onclose]: [leaveAll], removal from [nsp.sockets], then the
    ['disconnect'] listener.  It does nothing on a socket that is not
    connected. *)
Definition onclose (io : Server) (sid : SocketId) : Server * list Effect :=
  match sockets io !! sid with
  | None => (io, [])
  | Some s =>
      let io1 := delAll sid io in
      let io2 := {| sockets := delete sid (sockets io1); rooms := rooms io1 |} in
      (io2, on_disconnect io2 s)
  end.

(** [socket.on('error', ...)] for the error ['unauthorized']:
    [socket.emit('status', { status: 'unauthorized' }); socket.disconnect()]. *)
Definition on_error (io : Server) (sid : SocketId) : Server * list Effect :=
  let '(io', out) := onclose io sid in
  (io', socket_emit sid (status "unauthorized") :: out).

Section Middleware.

(** [verifyAccessToken] is imported from [./modules/auth/jwt.js]; it is
    taken as a parameter: [verifyAccessToken now token] is [true] when the
    call made at time [now] returns and [false] when it throws. *)
Variable verifyAccessToken : nat → string → bool.

(** The [socket.use] middleware: [true] stands for [next()], [false] for
    [next(new Error('unauthorized'))]. *)
Definition middleware (now : nat) (s : Socket) : bool :=
  match handshake_token s with
  | Some token => if truthy token then verifyAccessToken now token else false
  | None => false
  end.

(** One inbound packet on socket [sid]: the middleware, then either the
    listener of the event or the ['error'] listener.  A packet for a socket
    that is no longer connected is ignored. *)
Definition dispatch (now : nat) (io : Server) (sid : SocketId) (ev : ClientEvent)
  : Server * list Effect :=
  match sockets io !! sid with
  | None => (io, [])
  | Some s =>
      if middleware now s then
        let '(io', out) := listener io sid ev in (io', Handled sid ev :: out)
      else on_error io sid
  end.

End Middleware.

(** [chatIO.on('connection', ...)]: the new socket enters [nsp.sockets] with
    an empty [data] and joins the room named by its own id.  The transport
    hands out ids that are not in use. *)
Definition connect (io : Server) (sid : SocketId) (token : option string) : Server :=
  match sockets io !! sid with
  | Some _ => io
  | None =>
      addAll sid sid
        {| sockets := <[sid := {| id := sid; handshake_token := token;
                                  data := {| data_room := None; data_author := None |} |}]>
                        (sockets io);
           rooms := rooms io |}
  end.

(** What reaches the server: a new connection, a packet, a transport close. *)
Inductive Input :=
  | Connect (sid : SocketId) (token : option string)
  | Packet (now : nat) (sid : SocketId) (ev : ClientEvent)
  | Close (sid : SocketId).

Definition step (verifyAccessToken : nat → string → bool)
    (io : Server) (i : Input) : Server * list Effect :=
  match i with
  | Connect sid token => (connect io sid token, [])
  | Packet now sid ev => dispatch verifyAccessToken now io sid ev
  | Close sid => onclose io sid
  end.

Fixpoint run (verifyAccessToken : nat → string → bool)
    (io : Server) (tr : list Input) : Server * list Effect :=
  match tr with
  | [] => (io, [])
  | i :: tr' =>
      let '(io1, out1) := step verifyAccessToken io i in
      let '(io2, out2) := run verifyAccessToken io1 tr' in
      (io2, out1 ++ out2)
  end.

(** ** Observations on the effects *)

(** The messages written to socket [sid], in order. *)
Definition received (sid : SocketId) (out : list Effect) : list ServerMsg :=
  out ≫= λ e, match e with
              | Emit rcpts msg => if bool_decide (sid ∈ rcpts) then [msg] else []
              | Handled _ _ => []
              end.

(** The client events whose listener ran on socket [sid]. *)
Definition handled (sid : SocketId) (out : list Effect) : list ClientEvent :=
  out ≫= λ e, match e with
              | Handled sid' ev => if bool_decide (sid' = sid) then [ev] else []
              | Emit _ _ => []
              end.

(** The [emit] calls, with their recipients. *)
Definition emissions (out : list Effect) : list (list SocketId * ServerMsg) :=
  out ≫= λ e, match e with
              | Emit rcpts msg => [(rcpts, msg)]
              | Handled _ _ => []
              end.

(** The rosters carried by the [online_users] emissions. *)
Definition rosters (out : list Effect) : list (list PresenceEntry) :=
  out ≫= λ e, match e with
              | Emit _ (online_users l) => [l]
              | _ => []
              end.

Definition is_user_left (msg : ServerMsg) : bool :=
  match msg with user_left _ _ => true | _ => false end.

Definition is_status (msg : ServerMsg) : bool :=
  match msg with status _ => true | _ => false end.

(** The five room-fanout events relayed with [socket.to(data.room)]. *)
Definition is_room_fanout (ev : ClientEvent) : bool :=
  match ev with
  | send_message _ | typing _ _ | stop_typing _ _
  | message_read _ _ _ | react_message _ _ _ _ => true
  | join_room _ _ | private_message _ _ => false
  end.

(** [silent_for sid e]: the effect [e] writes nothing to socket [sid], is not
    a listener run of [sid], and, when it is an [online_users] emission,
    does not list [sid]. *)
Definition silent_for (sid : SocketId) (e : Effect) : Prop :=
  match e with
  | Emit rcpts msg =>
      (sid ∉ rcpts) ∧
      match msg with
      | online_users l => ∀ p, p ∈ l → socketId p ≠ sid
      | _ => True
      end
  | Handled sid' _ => sid' ≠ sid
  end.

(** [not_connecting sid i]: the input [i] is not the transport handing out
    the id [sid] to a new connection. *)
Definition not_connecting (sid : SocketId) (i : Input) : Prop :=
  match i with
  | Connect sid' _ => sid' ≠ sid
  | _ => True
  end.

(** [only_truthy clients users]: every key of [users] is the truthy author of
    one of the sockets [clients] and is mapped to the id of that socket. *)
Definition only_truthy (clients : list Socket) (users : JsRecord) : Prop :=
  ∀ k v, (k, v) ∈ users →
    ∃ t, t ∈ clients ∧ id t = v ∧ data_author (data t) = Some k ∧
         truthy k = true.

(** [omits_falsy clients users]: a socket of [clients] whose author is unset
    or is the empty string is the value of no key of [users]. *)
Definition omits_falsy (clients : list Socket) (users : JsRecord) : Prop :=
  ∀ t, t ∈ clients → truthy_opt (data_author (data t)) = false →
    ∀ k v, (k, v) ∈ users → v ≠ id t.

(** ** Well-formed namespaces

    What Socket.IO maintains between two listener runs: a socket is stored
    under its own id, rooms only hold connected sockets and hold each once,
    and a connected socket is in the room named by its id.  The empty
    namespace is well formed and every step keeps it so ([wf_init],
    [wf_run] below). *)
Record wf (io : Server) : Prop := {
  wf_id : ∀ i s, sockets io !! i = Some s → id s = i;
  wf_live : ∀ r i, i ∈ members io r → is_Some (sockets io !! i);
  wf_own : ∀ i, is_Some (sockets io !! i) → i ∈ members io i;
  wf_nodup : ∀ r, NoDup (members io r)
}.

(** ** Scenarios

    Connections ["c1"], ["c2"], ["c3"] with the token ["good"], which the
    verifier [demo_verify] accepts before time [10] and rejects from then
    on. *)

Definition demo_verify (now : nat) (token : string) : bool :=
  bool_decide (token = "good") && bool_decide (now < 10).

Definition demo_msg : ChatMessage :=
  {| messageId := "m1"; room := "general"; author := "alice";
     message := "hi"; time := "t1" |}.

(** A connected socket that has joined no room. *)
Definition demo_fresh (sid : SocketId) : Socket :=
  {| id := sid; handshake_token := Some "good";
     data := {| data_room := None; data_author := None |} |}.

(** ["c1"] as ["alice"] and ["c2"] as ["bob"], in room ["general"]. *)
Definition demo_alice : Socket :=
  {| id := "c1"; handshake_token := Some "good";
     data := {| data_room := Some "general"; data_author := Some "alice" |} |}.

Definition demo_bob : Socket :=
  {| id := "c2"; handshake_token := Some "good";
     data := {| data_room := Some "general"; data_author := Some "bob" |} |}.

(** ["c1"] and ["c2"] are connected and have joined no room. *)
Definition demo_connected : Server :=
  (run demo_verify chatIO_init
     [Connect "c1" (Some "good"); Connect "c2" (Some "good")]).1.

(** ["c1"] alone is connected and has joined room ["general"] as ["alice"]. *)
Definition demo_joined : Server :=
  (run demo_verify chatIO_init
     [Connect "c1" (Some "good");
      Packet 0 "c1" (join_room "general" "alice")]).1.

(** ["c1"] and ["c2"] are connected and ["c1"] has joined room ["general"]
    as ["alice"]. *)
Definition demo_alice_in : Server :=
  (run demo_verify chatIO_init
     [Connect "c1" (Some "good"); Connect "c2" (Some "good");
      Packet 0 "c1" (join_room "general" "alice")]).1.

(** ["c1"] and then ["c2"] have joined room ["general"], as ["alice"] and
    ["bob"]. *)
Definition demo_two : Server :=
  (run demo_verify chatIO_init
     [Connect "c1" (Some "good"); Connect "c2" (Some "good");
      Packet 0 "c1" (join_room "general" "alice");
      Packet 1 "c2" (join_room "general" "bob")]).1.

(** ["c1"] has joined room ["general"] as ["alice"] and then room ["other"]
    as ["al2"]. *)
Definition demo_moved : Server :=
  (run demo_verify chatIO_init
     [Connect "c1" (Some "good");
      Packet 0 "c1" (join_room "general" "alice");
      Packet 1 "c1" (join_room "other" "al2")]).1.

(** ["c1"] and ["c2"] have joined the room named by the empty string. *)
Definition demo_empty_room : Server :=
  (run demo_verify chatIO_init
     [Connect "c1" (Some "good"); Connect "c2" (Some "good");
      Packet 0 "c1" (join_room "" "alice");
      Packet 1 "c2" (join_room "" "bob")]).1.

(** ["c1"] and ["c2"] are connected and ["c1"] has joined room ["general"]
    with the empty author name. *)
Definition demo_blank_author : Server :=
  (run demo_verify chatIO_init
     [Connect "c1" (Some "good"); Connect "c2" (Some "good");
      Packet 0 "c1" (join_room "general" "")]).1.

(** ["c1"] has joined room ["general"] as ["alice"] and ["c2"] has joined it
    with the empty author name. *)
Definition demo_anonymous : Server :=
  (run demo_verify chatIO_init
     [Connect "c1" (Some "good"); Connect "c2" (Some "good");
      Packet 0 "c1" (join_room "general" "alice");
      Packet 1 "c2" (join_room "general" "")]).1.

(** ["c1"] and ["c2"] have joined room ["general"] and ["c2"] has then
    joined the room named ["c1"], the id of the other connection. *)
Definition demo_shadow : Server :=
  (run demo_verify chatIO_init
     [Connect "c1" (Some "good"); Connect "c2" (Some "good");
      Packet 0 "c1" (join_room "general" "alice");
      Packet 1 "c2" (join_room "general" "bob");
      Packet 2 "c2" (join_room "c1" "bob")]).1.

(** ["c1"], ["c2"] and ["c3"] are connected, ["c3"] has joined the room named
    ["c2"] and ["c2"] has joined room ["general"]. *)
Definition demo_eavesdrop : Server :=
  (run demo_verify chatIO_init
     [Connect "c1" (Some "good"); Connect "c2" (Some "good");
      Connect "c3" (Some "good");
      Packet 0 "c3" (join_room "c2" "eve");
      Packet 1 "c2" (join_room "general" "bob")]).1.

(** ** What the listeners keep true of [socket.data]

    [join_room] writes [room] and [author] together and puts the socket in
    the room it names, so on every connected socket either both are unset or
    both are set and the socket is a member of its [room]. *)
Definition data_ok (io : Server) : Prop :=
  ∀ sid s, sockets io !! sid = Some s →
    match data_room (data s), data_author (data s) with
    | None, None => True
    | Some r, Some _ => sid ∈ members io r
    | _, _ => False
    end.

(** The room a relaying event names: [data.room], or [data.toSocketId] for
    [private_message].  [join_room] relays nothing. *)
Definition relay_room (ev : ClientEvent) : option Room :=
  match ev with
  | join_room _ _ => None
  | send_message m => Some (room m)
  | typing r _ | stop_typing r _ | message_read r _ _
  | react_message r _ _ _ => Some r
  | private_message to _ => Some to
  end.

(** ["c1"] has joined room ["general"] as ["alice"]; ["c3"] is connected and
    has joined nothing. *)
Definition demo_outsider : Server :=
  (run demo_verify chatIO_init
     [Connect "c1" (Some "good"); Connect "c3" (Some "good");
      Packet 0 "c1" (join_room "general" "alice")]).1.

(** ["c1"] has joined room ["general"] and then room ["other"]; ["c2"] has
    joined room ["general"]. *)
Definition demo_moved_two : Server :=
  (run demo_verify chatIO_init
     [Connect "c1" (Some "good"); Connect "c2" (Some "good");
      Packet 0 "c1" (join_room "general" "alice");
      Packet 1 "c2" (join_room "general" "bob");
      Packet 2 "c1" (join_room "other" "alice")]).1.

Definition demo_alice_moved : Socket :=
  {| id := "c1"; handshake_token := Some "good";
     data := {| data_room := Some "other"; data_author := Some "alice" |} |}.

(** * Properties *)

(** ** The scenarios of the specification *)

(** ["c1"] and ["c2"] join ["general"] as ["alice"] and ["bob"]: two
    [online_users] broadcasts, the second with both entries, and two
    [user_joined], each with the membership at the time of its join. *)
Example scenario_two_joins :
  (run demo_verify chatIO_init
     [Connect "c1" (Some "good"); Connect "c2" (Some "good");
      Packet 0 "c1" (join_room "general" "alice");
      Packet 1 "c2" (join_room "general" "bob")]).2
  = [Handled "c1" (join_room "general" "alice");
     Emit ["c1"] (online_users [{| username := "alice"; socketId := "c1" |}]);
     Emit ["c1"] (user_joined "alice" "c1" [("alice", "c1")]);
     Handled "c2" (join_room "general" "bob");
     Emit ["c1"; "c2"]
          (online_users [{| username := "alice"; socketId := "c1" |};
                         {| username := "bob"; socketId := "c2" |}]);
     Emit ["c1"; "c2"]
          (user_joined "bob" "c2" [("alice", "c1"); ("bob", "c2")])].
Proof. vm_compute. reflexivity. Qed.

(** ["c1"] sends a message while ["c2"] is the only other member. *)
Example scenario_send_message :
  (dispatch demo_verify 2 demo_two "c1" (send_message demo_msg)).2
  = [Handled "c1" (send_message demo_msg);
     Emit ["c2"] (receive_message demo_msg)].
Proof. vm_compute. reflexivity. Qed.

(** A connection that never joined a room disconnects. *)
Example scenario_disconnect_unjoined :
  (step demo_verify demo_connected (Close "c1")).2 = [].
Proof. vm_compute. reflexivity. Qed.

(** Array-index keys are enumerated first and in numeric order, a key written
    twice keeps its place, ["__proto__"] and the empty author are not
    stored. *)
Example scenario_users_order :
  build_users
    [{| id := "a"; handshake_token := None;
        data := {| data_room := None; data_author := Some "zed" |} |};
     {| id := "b"; handshake_token := None;
        data := {| data_room := None; data_author := Some "10" |} |};
     {| id := "c"; handshake_token := None;
        data := {| data_room := None; data_author := Some "9" |} |};
     {| id := "d"; handshake_token := None;
        data := {| data_room := None; data_author := Some "zed" |} |};
     {| id := "e"; handshake_token := None;
        data := {| data_room := None; data_author := Some "__proto__" |} |};
     {| id := "f"; handshake_token := None;
        data := {| data_room := None; data_author := Some "" |} |}]
  = [("9", "c"); ("10", "b"); ("zed", "d")].
Proof. vm_compute. reflexivity. Qed.

(** The roster of a room lists the member with a name and leaves out the one
    that joined with the empty name. *)
Example scenario_anonymous_member :
  members demo_anonymous "general" = ["c1"; "c2"] ∧
  presence demo_anonymous "general"
    = [{| username := "alice"; socketId := "c1" |}].
Proof. split; vm_compute; reflexivity. Qed.

(** ** The [users] object *)

Lemma js_insert_new_elem k v (m : JsRecord) x :
  x ∈ js_insert_new k v m ↔ x = (k, v) ∨ x ∈ m.
Proof.
  induction m as [|[k' v'] m IH]; simpl.
  - rewrite list_elem_of_singleton. set_solver.
  - destruct (key_before k k'); set_solver.
Qed.

Lemma js_insert_new_length k v (m : JsRecord) :
  length (js_insert_new k v m) = S (length m).
Proof.
  induction m as [|[k' v'] m IH]; simpl; [done|].
  destruct (key_before k k'); simpl; by rewrite ?IH.
Qed.

Lemma js_set_elem k v (m : JsRecord) k' v' :
  k ≠ "__proto__" →
  (k', v') ∈ js_set k v m ↔ (k' = k ∧ v' = v) ∨ (k' ≠ k ∧ (k', v') ∈ m).
Proof.
  intros Hk. unfold js_set, js_has.
  destruct (decide (k = "__proto__")) as [|_]; [done|].
  case_bool_decide as Hin.
  - rewrite list_elem_of_fmap. split.
    + intros ([k0 v0] & Heq & Hy). simpl in Heq.
      destruct (decide (k0 = k)); simplify_eq; [by left|by right].
    + intros [[-> ->]|[Hne Hy]].
      * apply list_elem_of_fmap in Hin as ([k0 v0] & -> & Hy).
        exists (k0, v0). simpl. by rewrite decide_True.
      * exists (k', v'). simpl. by rewrite decide_False.
  - rewrite js_insert_new_elem. split.
    + intros [?|Hy]; simplify_eq; [by left|].
      right. split; [|done]. intros ->. apply Hin.
      apply list_elem_of_fmap. by exists (k, v').
    + intros [[-> ->]|[_ ?]]; [by left|by right].
Qed.

Lemma js_set_elem_inv k v (m : JsRecord) k' v' :
  (k', v') ∈ js_set k v m → (k' = k ∧ v' = v) ∨ (k', v') ∈ m.
Proof.
  destruct (decide (k = "__proto__")) as [->|Hk].
  - unfold js_set. rewrite decide_True by done. by right.
  - rewrite js_set_elem by done. naive_solver.
Qed.

Lemma entries_elem (m : JsRecord) e :
  e ∈ entries m ↔ (username e, socketId e) ∈ m.
Proof.
  unfold entries. rewrite list_elem_of_fmap. split.
  - by intros ([k v] & -> & ?).
  - intros ?. exists (username e, socketId e). by destruct e.
Qed.

(** ** Presence computation *)

Lemma add_user_keeps users s a v :
  data_author (data s) ≠ Some a →
  (a, v) ∈ users → (a, v) ∈ add_user users s.
Proof.
  intros Hne Hin. unfold add_user.
  destruct (data_author (data s)) as [b|]; [|done].
  destruct (truthy b); [|done].
  destruct (decide (b = "__proto__")) as [->|Hb].
  - unfold js_set. by rewrite decide_True.
  - apply js_set_elem; [done|]. right. split; [congruence|done].
Qed.

Lemma foldl_add_user_keeps l users a v :
  (∀ s, s ∈ l → data_author (data s) ≠ Some a) →
  (a, v) ∈ users → (a, v) ∈ foldl add_user users l.
Proof.
  revert users. induction l as [|s l IH]; intros users Hl Hin; simpl; [done|].
  apply IH; [set_solver|]. apply add_user_keeps; [|done]. apply Hl. set_solver.
Qed.

(** The socket enumerated last among those with author [a] owns the key [a]. *)
Lemma build_users_last l1 s l2 a :
  data_author (data s) = Some a →
  truthy a = true → a ≠ "__proto__" →
  (∀ s', s' ∈ l2 → data_author (data s') ≠ Some a) →
  (a, id s) ∈ build_users (l1 ++ s :: l2).
Proof.
  intros Ha Ht Hp Hl2. unfold build_users. rewrite foldl_app. simpl.
  apply foldl_add_user_keeps; [done|].
  unfold add_user at 1. rewrite Ha, Ht. apply js_set_elem; [done|]. by left.
Qed.

Lemma foldl_add_user_only l users k v :
  (k, v) ∈ foldl add_user users l →
  (k, v) ∈ users ∨
  ∃ s, s ∈ l ∧ data_author (data s) = Some k ∧ truthy k = true ∧ id s = v.
Proof.
  revert users. induction l as [|s l IH]; intros users Hin; simpl in *; [by left|].
  apply IH in Hin as [Hin|(s' & ? & ?)]; [|right; exists s'; set_solver].
  unfold add_user in Hin.
  destruct (data_author (data s)) as [b|] eqn:Hb; [|by left].
  destruct (truthy b) eqn:Ht; [|by left].
  apply js_set_elem_inv in Hin as [[-> ->]|?]; [|by left].
  right. exists s. set_solver.
Qed.

(** Every key of [users] is the truthy author of a socket of the list, and
    its value is the id of that socket. *)
Lemma build_users_only l k v :
  (k, v) ∈ build_users l →
  ∃ s, s ∈ l ∧ data_author (data s) = Some k ∧ truthy k = true ∧ id s = v.
Proof.
  intros [Hin|?]%foldl_add_user_only; [|done]. by apply elem_of_nil in Hin.
Qed.

(** ** The adapter *)

Lemma members_addAll sid r io r' :
  members (addAll sid r io) r' =
    if decide (r' = r)
    then (if bool_decide (sid ∈ members io r) then members io r
          else members io r ++ [sid])
    else members io r'.
Proof.
  unfold addAll, members at 1. simpl.
  case_bool_decide; destruct (decide (r' = r)) as [->|Hne]; try done.
  - by rewrite lookup_insert_eq.
  - by rewrite lookup_insert_ne.
Qed.

Lemma members_delAll sid io r :
  members (delAll sid io) r = filter (λ i, i ≠ sid) (members io r).
Proof.
  unfold delAll, members. simpl. rewrite lookup_omap.
  destruct (rooms io !! r) as [l|]; simpl; [|done].
  by destruct (filter _ l).
Qed.

Lemma members_set_data sid d io r :
  members (set_data sid d io) r = members io r.
Proof. done. Qed.

Lemma computeExceptSids_nil io : computeExceptSids io [] = [].
Proof. done. Qed.

Lemma computeExceptSids_one io r : computeExceptSids io [r] = members io r.
Proof. unfold computeExceptSids. simpl. by rewrite app_nil_r. Qed.

Lemma apply_elem io r except s :
  s ∈ apply io r except ↔
  ∃ i, i ∈ members io r ∧ (i ∉ computeExceptSids io except)
       ∧ sockets io !! i = Some s.
Proof.
  unfold apply. rewrite list_elem_of_omap. split.
  - intros (i & [? ?]%list_elem_of_filter & ?). by exists i.
  - intros (i & ? & ? & ?). exists i. by rewrite list_elem_of_filter.
Qed.

(** ** Well-formed namespaces *)

Lemma filter_all {A} (P : A → Prop) `{!∀ x, Decision (P x)} (l : list A) :
  (∀ x, x ∈ l → P x) → filter P l = l.
Proof.
  induction l as [|x l IH]; intros Hl; [done|].
  rewrite filter_cons_True by set_solver. f_equal. apply IH. set_solver.
Qed.

Lemma omap_lookup_ids (m : gmap SocketId Socket) (l : list SocketId) :
  (∀ i, i ∈ l → ∃ s, m !! i = Some s ∧ id s = i) →
  id <$> omap (λ i, m !! i) l = l.
Proof.
  induction l as [|i l IH]; intros Hl; simpl; [done|].
  destruct (Hl i) as (s & -> & Hs); [set_solver|]. simpl.
  rewrite Hs. f_equal. apply IH. set_solver.
Qed.

(** In a well-formed namespace a broadcast reaches exactly the members of
    the room that are in none of the excepted rooms. *)
Lemma apply_ids io r except :
  wf io →
  id <$> apply io r except =
    filter (λ i, i ∉ computeExceptSids io except) (members io r).
Proof.
  intros Hwf. unfold apply. apply omap_lookup_ids.
  intros i [_ Hi]%list_elem_of_filter.
  destruct (wf_live io Hwf r i Hi) as [s Hs]. exists s. split; [done|].
  by apply (wf_id io Hwf).
Qed.

Lemma in_emit_ids io r msg :
  wf io → in_emit io r msg = Emit (members io r) msg.
Proof.
  intros Hwf. unfold in_emit. rewrite apply_ids by done.
  f_equal. rewrite computeExceptSids_nil.
  apply filter_all. intros i _. apply not_elem_of_nil.
Qed.

Lemma to_emit_ids io sid r msg :
  wf io →
  to_emit io sid r msg =
    Emit (filter (λ i, i ∉ members io sid) (members io r)) msg.
Proof.
  intros Hwf. unfold to_emit. rewrite apply_ids by done.
  by rewrite computeExceptSids_one.
Qed.

(** A connected socket is never among the recipients of its own
    [socket.to(..).emit]. *)
Lemma to_emit_not_self io sid s r :
  wf io → sockets io !! sid = Some s →
  sid ∉ filter (λ i, i ∉ members io sid) (members io r).
Proof.
  intros Hwf Hs [Hn _]%list_elem_of_filter. apply Hn.
  apply (wf_own io Hwf). by exists s.
Qed.

Lemma fetchSockets_id io r s :
  wf io → s ∈ fetchSockets io r →
  id s ∈ members io r ∧ sockets io !! id s = Some s.
Proof.
  intros Hwf (i & Hi & _ & Hs)%apply_elem.
  by rewrite (wf_id io Hwf i s Hs).
Qed.

(** *** The invariant is kept *)

Lemma wf_init : wf chatIO_init.
Proof.
  split; unfold members; simpl; intros *; rewrite ?lookup_empty; simpl.
  - done.
  - by intros ?%elem_of_nil.
  - by intros [? ?].
  - constructor.
Qed.

Lemma wf_addAll sid r io :
  wf io → is_Some (sockets io !! sid) → wf (addAll sid r io).
Proof.
  intros [H1 H2 H3 H4] Hs. split.
  - done.
  - intros r' i. rewrite members_addAll.
    destruct (decide (r' = r)) as [->|]; [|apply H2].
    case_bool_decide; [apply H2|].
    intros [?| ->%list_elem_of_singleton]%elem_of_app; [by eapply H2|done].
  - intros i Hi. rewrite members_addAll.
    destruct (decide (i = r)) as [->|]; [|by apply H3].
    case_bool_decide; [by apply H3|]. apply elem_of_app. left. by apply H3.
  - intros r'. rewrite members_addAll.
    destruct (decide (r' = r)) as [->|]; [|apply H4].
    case_bool_decide as Hin; [apply H4|].
    apply NoDup_app. split; [apply H4|]. split; [|apply NoDup_singleton].
    by intros i ? ->%list_elem_of_singleton.
Qed.

Lemma wf_set_data sid d io : wf io → wf (set_data sid d io).
Proof.
  intros [H1 H2 H3 H4]. split; simpl.
  - intros i s. rewrite lookup_alter. case_decide as Heq.
    + subst. destruct (sockets io !! i) as [s0|] eqn:Hs0; simpl; [|done].
      intros [= <-]. simpl. by apply H1.
    + apply H1.
  - intros r i Hi. rewrite lookup_alter. case_decide.
    + subst. apply fmap_is_Some. by eapply H2.
    + by eapply H2.
  - intros i. rewrite lookup_alter. case_decide.
    + subst. rewrite fmap_is_Some. apply H3.
    + apply H3.
  - done.
Qed.

Lemma wf_connect io sid token : wf io → wf (connect io sid token).
Proof.
  intros Hwf. unfold connect.
  destruct (sockets io !! sid) eqn:Hsid; [done|].
  destruct Hwf as [H1 H2 H3 H4].
  match goal with |- wf (addAll _ _ ?x) => set (io0 := x) end.
  assert (Hm : ∀ r, members io0 r = members io r) by done.
  split.
  - intros i s. simpl. rewrite lookup_insert. case_decide; [|apply H1].
    by intros [= <-].
  - intros r i. rewrite members_addAll, !Hm. simpl. rewrite lookup_insert.
    destruct (decide (sid = i)) as [|Hne]; [done|]. intros Hi. apply (H2 r).
    destruct (decide (r = sid)); [|done]. subst r.
    case_bool_decide; [done|].
    apply elem_of_app in Hi as [?|Hi]; [done|].
    apply list_elem_of_singleton in Hi. by subst.
  - intros i. simpl. rewrite lookup_insert, members_addAll, !Hm.
    destruct (decide (sid = i)) as [<-|Hne].
    + intros _. rewrite decide_True by done.
      case_bool_decide; [done|]. apply elem_of_app. right. by left.
    + intros Hi. rewrite decide_False by done. by apply H3.
  - intros r. rewrite members_addAll, !Hm.
    destruct (decide (r = sid)) as [->|]; [|apply H4].
    case_bool_decide as Hin; [apply H4|].
    apply NoDup_app. split; [apply H4|]. split; [|apply NoDup_singleton].
    by intros i ? ->%list_elem_of_singleton.
Qed.

Lemma wf_on_join_room io sid r a :
  wf io → is_Some (sockets io !! sid) → wf (on_join_room io sid r a).1.
Proof. intros. simpl. by apply wf_set_data, wf_addAll. Qed.

Lemma wf_listener io sid ev :
  wf io → is_Some (sockets io !! sid) → wf (listener io sid ev).1.
Proof. intros. destruct ev; simpl; try done. by apply wf_set_data, wf_addAll. Qed.

Lemma wf_onclose io sid : wf io → wf (onclose io sid).1.
Proof.
  intros Hwf. unfold onclose.
  destruct (sockets io !! sid) as [s|] eqn:Hs; [|done]. simpl.
  destruct Hwf as [H1 H2 H3 H4].
  match goal with |- wf ?x => set (io2 := x) end.
  assert (Hm : ∀ r, members io2 r = filter (λ i, i ≠ sid) (members io r)).
  { intros r. apply (members_delAll sid io r). }
  split.
  - intros i s'. simpl. rewrite lookup_delete. case_decide; [done|apply H1].
  - intros r i. rewrite Hm. intros [Hne Hi]%list_elem_of_filter.
    simpl. rewrite lookup_delete_ne by done. by eapply H2.
  - intros i. simpl. rewrite lookup_delete. case_decide; [by intros [? ?]|].
    intros Hi. rewrite Hm. apply list_elem_of_filter. split; [done|by apply H3].
  - intros r. rewrite Hm. apply NoDup_filter, H4.
Qed.

(** ** Effects that do not concern a socket *)

Lemma received_cons sid e out :
  received sid (e :: out) = received sid [e] ++ received sid out.
Proof. unfold received. simpl. by rewrite app_nil_r. Qed.

Lemma handled_cons sid e out :
  handled sid (e :: out) = handled sid [e] ++ handled sid out.
Proof. unfold handled. simpl. by rewrite app_nil_r. Qed.

Lemma rosters_cons e out : rosters (e :: out) = rosters [e] ++ rosters out.
Proof. unfold rosters. simpl. by rewrite app_nil_r. Qed.

Lemma emissions_cons e out :
  emissions (e :: out) = emissions [e] ++ emissions out.
Proof. unfold emissions. simpl. by rewrite app_nil_r. Qed.

Lemma silent_received sid out :
  Forall (silent_for sid) out → received sid out = [].
Proof.
  induction 1 as [|e out He _ IH]; [done|].
  rewrite received_cons, IH, app_nil_r.
  destruct e as [rc msg|]; [|done]. destruct He as [He _].
  unfold received. simpl. by rewrite bool_decide_eq_false_2.
Qed.

Lemma silent_handled sid out :
  Forall (silent_for sid) out → handled sid out = [].
Proof.
  induction 1 as [|e out He _ IH]; [done|].
  rewrite handled_cons, IH, app_nil_r.
  destruct e as [|sid' ev]; [done|]. simpl in He.
  unfold handled. simpl. by rewrite bool_decide_eq_false_2.
Qed.

Lemma silent_rosters sid out l p :
  Forall (silent_for sid) out → l ∈ rosters out → p ∈ l → socketId p ≠ sid.
Proof.
  induction 1 as [|e out He _ IH].
  - by intros ?%elem_of_nil.
  - rewrite rosters_cons. intros [Hl|Hl]%elem_of_app; [|by apply IH].
    destruct e as [rc [] |]; try by apply elem_of_nil in Hl.
    apply list_elem_of_singleton in Hl as ->. destruct He as [_ He]. apply He.
Qed.

Lemma presence_only io r p :
  wf io → p ∈ presence io r →
  ∃ s, s ∈ fetchSockets io r ∧ sockets io !! socketId p = Some s ∧
       data_author (data s) = Some (username p) ∧
       truthy (username p) = true.
Proof.
  intros Hwf (s & Hs & Ha & Ht & Hid)%entries_elem%build_users_only.
  exists s. destruct (fetchSockets_id io r s Hwf Hs) as [_ Hl].
  by rewrite <-Hid.
Qed.

Lemma presence_excludes io r sid p :
  wf io → sockets io !! sid = None → p ∈ presence io r → socketId p ≠ sid.
Proof.
  intros Hwf Hdead (s & _ & Hs & _)%presence_only; [|done]. congruence.
Qed.

Lemma members_live_ne io r sid :
  wf io → sockets io !! sid = None → sid ∉ members io r.
Proof.
  intros Hwf Hdead Hin. destruct (wf_live io Hwf r sid Hin). congruence.
Qed.

Lemma in_emit_silent io r sid msg :
  wf io → sockets io !! sid = None →
  match msg with
  | online_users l => l = presence io r
  | _ => True
  end →
  silent_for sid (in_emit io r msg).
Proof.
  intros Hwf Hdead Hmsg. rewrite in_emit_ids by done. split.
  - by apply members_live_ne.
  - destruct msg; try done. subst. intros p. by apply presence_excludes.
Qed.

Lemma to_emit_silent io r sid sid' msg :
  wf io → sockets io !! sid = None →
  match msg with online_users _ => False | _ => True end →
  silent_for sid (to_emit io sid' r msg).
Proof.
  intros Hwf Hdead Hmsg. rewrite to_emit_ids by done. split.
  - intros [_ ?]%list_elem_of_filter. by eapply members_live_ne.
  - by destruct msg.
Qed.

Lemma sockets_join_self io sid r a :
  sockets (on_join_room io sid r a).1 !! sid =
    (λ s, {| id := id s; handshake_token := handshake_token s;
             data := {| data_room := Some r; data_author := Some a |} |})
      <$> sockets io !! sid.
Proof. simpl. by rewrite lookup_alter_eq. Qed.

Lemma sockets_join_other io sid r a i :
  i ≠ sid → sockets (on_join_room io sid r a).1 !! i = sockets io !! i.
Proof. intros. simpl. by rewrite lookup_alter_ne. Qed.

Lemma dead_listener io sid' ev sid :
  sockets io !! sid = None → sockets (listener io sid' ev).1 !! sid = None.
Proof.
  intros Hdead. destruct ev; simpl; try done.
  rewrite lookup_alter. case_decide; subst; by rewrite Hdead.
Qed.

Lemma dead_onclose io sid' sid :
  sid = sid' ∨ sockets io !! sid = None →
  sockets (onclose io sid').1 !! sid = None.
Proof.
  intros Hdead. unfold onclose.
  destruct (sockets io !! sid') as [s|] eqn:Hs; simpl.
  - rewrite lookup_delete. case_decide; [done|]. naive_solver.
  - naive_solver.
Qed.

Lemma listener_silent io sid' ev sid :
  wf io → is_Some (sockets io !! sid') → sockets io !! sid = None →
  Forall (silent_for sid) (listener io sid' ev).2.
Proof.
  intros Hwf Hlive Hdead.
  destruct ev; simpl;
    try (apply Forall_singleton; by apply to_emit_silent).
  pose proof (wf_on_join_room io sid' room0 author0 Hwf Hlive) as Hwf2.
  pose proof (dead_listener io sid' (join_room room0 author0) sid Hdead) as Hd2.
  repeat apply Forall_cons_2; [| |done]; by apply in_emit_silent.
Qed.

Lemma on_disconnect_silent io s sid :
  wf io → sockets io !! sid = None → Forall (silent_for sid) (on_disconnect io s).
Proof.
  intros Hwf Hdead. unfold on_disconnect.
  destruct (data_room (data s)) as [r|]; [|done].
  destruct (truthy r); [|done].
  repeat apply Forall_cons_2; [| |done]; by apply in_emit_silent.
Qed.

Lemma onclose_silent io sid' sid :
  wf io → sid = sid' ∨ sockets io !! sid = None →
  Forall (silent_for sid) (onclose io sid').2.
Proof.
  intros Hwf Hdead.
  pose proof (wf_onclose io sid' Hwf) as Hwf2.
  pose proof (dead_onclose io sid' sid Hdead) as Hd2.
  unfold onclose in *.
  destruct (sockets io !! sid') as [s|] eqn:Hs; simpl in *; [|done].
  by apply on_disconnect_silent.
Qed.

(** ** Packets, steps and runs *)

Section Dispatch.

Variable verifyAccessToken : nat → string → bool.

#[local] Abbreviation dispatch := (dispatch verifyAccessToken).
#[local] Abbreviation middleware := (middleware verifyAccessToken).
#[local] Abbreviation step := (step verifyAccessToken).
#[local] Abbreviation run := (run verifyAccessToken).

(** The middleware rejects exactly when the token is missing (absent or
    empty) or the verifier throws. *)
Lemma middleware_false now s :
  middleware now s = false ↔
  handshake_token s = None ∨ handshake_token s = Some "" ∨
  ∃ token, handshake_token s = Some token ∧
           verifyAccessToken now token = false.
Proof.
  unfold middleware, truthy. destruct (handshake_token s) as [t|].
  - destruct (String.eqb_spec t ""); simpl; naive_solver.
  - naive_solver.
Qed.

Lemma dispatch_accepted now io sid ev s :
  sockets io !! sid = Some s → middleware now s = true →
  dispatch now io sid ev =
    ((listener io sid ev).1, Handled sid ev :: (listener io sid ev).2).
Proof.
  intros Hs Hm. unfold dispatch. rewrite Hs, Hm.
  by destruct (listener io sid ev).
Qed.

Lemma dispatch_rejected now io sid ev s :
  sockets io !! sid = Some s → middleware now s = false →
  dispatch now io sid ev =
    ((onclose io sid).1,
     socket_emit sid (status "unauthorized") :: (onclose io sid).2).
Proof.
  intros Hs Hm. unfold dispatch, on_error. rewrite Hs, Hm.
  by destruct (onclose io sid).
Qed.

Lemma dispatch_dead now io sid ev :
  sockets io !! sid = None → dispatch now io sid ev = (io, []).
Proof. intros Hs. unfold dispatch. by rewrite Hs. Qed.

Lemma wf_dispatch now io sid ev : wf io → wf (dispatch now io sid ev).1.
Proof.
  intros Hwf. destruct (sockets io !! sid) as [s|] eqn:Hs.
  - destruct (middleware now s) eqn:Hm.
    + erewrite dispatch_accepted by done. by apply wf_listener.
    + erewrite dispatch_rejected by done. by apply wf_onclose.
  - by rewrite dispatch_dead.
Qed.

Lemma wf_step io i : wf io → wf (step io i).1.
Proof.
  intros Hwf. destruct i; simpl.
  - by apply wf_connect.
  - by apply wf_dispatch.
  - by apply wf_onclose.
Qed.

Lemma run_cons io i tr :
  run io (i :: tr) =
    ((run (step io i).1 tr).1, (step io i).2 ++ (run (step io i).1 tr).2).
Proof.
  simpl. destruct (step io i) as [io1 out1]. simpl.
  by destruct (run io1 tr).
Qed.

Lemma wf_run tr io : wf io → wf (run io tr).1.
Proof.
  revert io. induction tr as [|i tr IH]; intros io Hwf; [done|].
  rewrite run_cons. simpl. by apply IH, wf_step.
Qed.

(** A socket that is not connected stays so until the transport connects
    it, and meanwhile nothing concerns it. *)
Lemma dead_step io i sid :
  sockets io !! sid = None → not_connecting sid i →
  sockets (step io i).1 !! sid = None.
Proof.
  intros Hdead Hi. destruct i as [sid' tok|now sid' ev|sid']; simpl in *.
  - unfold connect. destruct (sockets io !! sid'); [done|]. simpl.
    by rewrite lookup_insert_ne.
  - destruct (sockets io !! sid') as [s|] eqn:Hs.
    + destruct (middleware now s) eqn:Hm.
      * erewrite dispatch_accepted by done. by apply dead_listener.
      * erewrite dispatch_rejected by done. apply dead_onclose. by right.
    + by rewrite dispatch_dead.
  - apply dead_onclose. by right.
Qed.

Lemma step_silent io i sid :
  wf io → sockets io !! sid = None →
  Forall (silent_for sid) (step io i).2.
Proof.
  intros Hwf Hdead. destruct i as [sid' tok|now sid' ev|sid']; simpl.
  - done.
  - destruct (sockets io !! sid') as [s|] eqn:Hs.
    + destruct (middleware now s) eqn:Hm.
      * erewrite dispatch_accepted by done. simpl. apply Forall_cons_2.
        { simpl. congruence. }
        by apply listener_silent.
      * erewrite dispatch_rejected by done. simpl. apply Forall_cons_2.
        { split; [|done]. rewrite list_elem_of_singleton. congruence. }
        apply onclose_silent; [done|by right].
    + by rewrite dispatch_dead.
  - apply onclose_silent; [done|by right].
Qed.

Lemma run_silent tr io sid :
  wf io → sockets io !! sid = None →
  Forall (not_connecting sid) tr →
  Forall (silent_for sid) (run io tr).2.
Proof.
  revert io. induction tr as [|i tr IH]; intros io Hwf Hdead Htr; [done|].
  apply Forall_cons in Htr as [Hi Htr].
  rewrite run_cons. simpl. apply Forall_app. split.
  - by apply step_silent.
  - apply IH; [by apply wf_step|by apply dead_step|done].
Qed.

End Dispatch.

(** The scenario states are reached by a run from the empty namespace, and
    what they contain is found by running the listeners. *)
Ltac wf_scenario := apply wf_run, wf_init.
Ltac computed := vm_compute; reflexivity.

(** ** Authorization *)

Lemma on_disconnect_no_status io s :
  filter (λ e, is_status e.2) (emissions (on_disconnect io s)) = [].
Proof.
  unfold on_disconnect. destruct (data_room (data s)); [|done].
  by destruct (truthy _).
Qed.

Lemma onclose_no_status io sid :
  filter (λ e, is_status e.2) (emissions (onclose io sid).2) = [].
Proof.
  unfold onclose. destruct (sockets io !! sid); [|done].
  apply on_disconnect_no_status.
Qed.

Section Authorization.

Variable verifyAccessToken : nat → string → bool.

#[local] Abbreviation dispatch := (dispatch verifyAccessToken).
#[local] Abbreviation middleware := (middleware verifyAccessToken).
#[local] Abbreviation step := (step verifyAccessToken).
#[local] Abbreviation run := (run verifyAccessToken).


End Authorization.


(** ** Audiences *)

Section Audience.

Variable verifyAccessToken : nat → string → bool.

#[local] Abbreviation dispatch := (dispatch verifyAccessToken).
#[local] Abbreviation middleware := (middleware verifyAccessToken).
#[local] Abbreviation step := (step verifyAccessToken).

Lemma join_room_effects io sid r a :
  wf io → is_Some (sockets io !! sid) →
  let io' := (on_join_room io sid r a).1 in
  (on_join_room io sid r a).2 =
    [Emit (members io' r) (online_users (presence io' r));
     Emit (members io' r) (user_joined a sid (users_of io' r))] ∧
  sid ∈ members io' r.
Proof.
  intros Hwf Hlive io'.
  pose proof (wf_on_join_room io sid r a Hwf Hlive) as Hwf'.
  split.
  - unfold on_join_room. simpl. by rewrite !in_emit_ids.
  - unfold io'. simpl. rewrite members_set_data, members_addAll.
    rewrite decide_True by done. case_bool_decide; [done|].
    apply elem_of_app. right. by left.
Qed.

Lemma onclose_effects io sid s :
  wf io → sockets io !! sid = Some s →
  let io' := (onclose io sid).1 in
  (onclose io sid).2 =
    match data_room (data s) with
    | Some r =>
        if truthy r then
          [Emit (members io' r) (online_users (presence io' r));
           Emit (members io' r)
                (user_left (data_author (data s)) (users_of io' r))]
        else []
    | None => []
    end.
Proof.
  intros Hwf Hs io'. pose proof (wf_onclose io sid Hwf) as Hwf'.
  unfold io' in *. unfold onclose in *. rewrite Hs in *. simpl in *.
  unfold on_disconnect. destruct (data_room (data s)) as [r|]; [|done].
  destruct (truthy r); [|done]. by rewrite !in_emit_ids.
Qed.

Lemma received_to_emit io sid s r msg :
  wf io → sockets io !! sid = Some s →
  received sid [to_emit io sid r msg] = [].
Proof.
  intros Hwf Hs. rewrite to_emit_ids by done. unfold received. simpl.
  rewrite bool_decide_eq_false_2; [done|]. by eapply to_emit_not_self.
Qed.

(** C2, as amended.  A room-fanout event ([send_message], [typing],
    [stop_typing], [message_read], [react_message]) writes nothing to the
    connection that sent it.  The [online_users] and [user_joined]
    emissions of [join_room] go to every member of the room, the joining
    connection among them.  The [online_users] and [user_left] emissions of
    a disconnect go to every member the room still has; the disconnected
    connection is not one of them. *)
Theorem fanout_audience io sid s :
  wf io →
  sockets io !! sid = Some s →
  (∀ now ev, middleware now s = true → is_room_fanout ev = true →
     received sid (dispatch now io sid ev).2 = []) ∧
  (∀ now r a, middleware now s = true →
     ∃ io' users,
       dispatch now io sid (join_room r a) =
         (io', [Handled sid (join_room r a);
                Emit (members io' r) (online_users (entries users));
                Emit (members io' r) (user_joined a sid users)]) ∧
       sid ∈ members io' r) ∧
  (∀ r, data_room (data s) = Some r → truthy r = true →
     ∃ io' users,
       step io (Close sid) =
         (io', [Emit (members io' r) (online_users (entries users));
                Emit (members io' r)
                     (user_left (data_author (data s)) users)]) ∧
       sid ∉ members io' r).
Proof.
  intros Hwf Hs. split; [|split].
  - intros now ev Hm Hev. erewrite dispatch_accepted by done.
    cbn [snd]. rewrite received_cons.
    change (received sid [Handled sid ev]) with (@nil ServerMsg).
    destruct ev; try discriminate; by eapply received_to_emit.
  - intros now r a Hm.
    exists (on_join_room io sid r a).1, (users_of (on_join_room io sid r a).1 r).
    destruct (join_room_effects io sid r a Hwf) as [Hout Hin]; [by exists s|].
    split; [|done]. erewrite dispatch_accepted by done.
    simpl listener. by rewrite Hout.
  - intros r Hr Ht.
    exists (onclose io sid).1, (users_of (onclose io sid).1 r).
    pose proof (onclose_effects io sid s Hwf Hs) as Hout.
    rewrite Hr, Ht in Hout. simpl in Hout. split.
    + simpl step. rewrite (surjective_pairing (onclose io sid)).
      by rewrite Hout.
    + apply members_live_ne; [by apply wf_onclose|].
      apply dead_onclose. by left.
Qed.

End Audience.

Lemma fanout_audience_witness :
  received "c1"
    (dispatch demo_verify 2 demo_two "c1" (send_message demo_msg)).2 = [] ∧
  (∃ io' users,
     dispatch demo_verify 2 demo_two "c1" (join_room "other" "al") =
       (io', [Handled "c1" (join_room "other" "al");
              Emit (members io' "other") (online_users (entries users));
              Emit (members io' "other") (user_joined "al" "c1" users)]) ∧
     "c1" ∈ members io' "other") ∧
  (∃ io' users,
     step demo_verify demo_two (Close "c1") =
       (io', [Emit (members io' "general") (online_users (entries users));
              Emit (members io' "general")
                   (user_left (data_author (data demo_alice)) users)]) ∧
     "c1" ∉ members io' "general").
Proof.
  destruct (fanout_audience demo_verify demo_two "c1" demo_alice)
    as (H1 & H2 & H3).
  - wf_scenario.
  - computed.
  - split; [|split].
    + apply H1; reflexivity.
    + apply H2. reflexivity.
    + apply H3; reflexivity.
Defined.

(** The broadcasts of a disconnect are not written to the connection that
    disconnected: when ["c1"] leaves room ["general"], [online_users] and
    [user_left] go to ["c2"] alone and ["c1"] is written nothing. *)
Lemma user_left_skips_leaver :
  (step demo_verify demo_two (Close "c1")).2
    = [Emit ["c2"] (online_users [{| username := "bob"; socketId := "c2" |}]);
       Emit ["c2"] (user_left (Some "alice") [("bob", "c2")])] ∧
  received "c1" (step demo_verify demo_two (Close "c1")).2 = [].
Proof. split; computed. Qed.

(** ** Membership and presence *)

Lemma fetchSockets_elem io r sid s :
  sid ∈ members io r → sockets io !! sid = Some s → s ∈ fetchSockets io r.
Proof.
  intros Hin Hs. apply apply_elem. exists sid.
  split; [done|]. split; [apply not_elem_of_nil|done].
Qed.

Lemma fetchSockets_ids io r : wf io → id <$> fetchSockets io r = members io r.
Proof.
  intros Hwf. unfold fetchSockets. rewrite apply_ids by done.
  apply filter_all. intros i _. apply not_elem_of_nil.
Qed.

(** A member of the room with a truthy author [a] is listed under [a] in
    the roster as soon as no member enumerated after it carries the same
    author. *)
Lemma presence_lists_last io r l1 s l2 a :
  fetchSockets io r = l1 ++ s :: l2 →
  data_author (data s) = Some a → truthy a = true → a ≠ "__proto__" →
  (∀ s', s' ∈ l2 → data_author (data s') ≠ Some a) →
  {| username := a; socketId := id s |} ∈ presence io r.
Proof.
  intros Hsplit Ha Ht Hp Hl2. apply entries_elem. simpl.
  unfold users_of. rewrite Hsplit. by apply build_users_last.
Qed.

Lemma presence_lists io r sid s a :
  wf io → sockets io !! sid = Some s → sid ∈ members io r →
  data_author (data s) = Some a → truthy a = true → a ≠ "__proto__" →
  (∀ s', s' ∈ fetchSockets io r → id s' ≠ sid →
         data_author (data s') ≠ Some a) →
  {| username := a; socketId := sid |} ∈ presence io r.
Proof.
  intros Hwf Hs Hin Ha Ht Hp Hothers.
  pose proof (fetchSockets_elem io r sid s Hin Hs) as Hfetch.
  apply list_elem_of_split in Hfetch as (l1 & l2 & Hsplit).
  rewrite <-(wf_id io Hwf sid s Hs).
  eapply presence_lists_last; [done..|].
  intros s' Hs'. apply Hothers.
  - rewrite Hsplit. set_solver.
  - pose proof (wf_nodup io Hwf r) as Hnd.
    rewrite <-fetchSockets_ids, Hsplit, fmap_app, fmap_cons in Hnd by done.
    apply NoDup_app in Hnd as (_ & _ & Hnd). apply NoDup_cons in Hnd as [Hnd _].
    rewrite (wf_id io Hwf sid s Hs) in Hnd. intros Heq. apply Hnd.
    rewrite <-Heq. by apply list_elem_of_fmap_2.
Qed.

Section Membership.

Variable verifyAccessToken : nat → string → bool.

#[local] Abbreviation dispatch := (dispatch verifyAccessToken).
#[local] Abbreviation middleware := (middleware verifyAccessToken).


End Membership.



(** ** Disconnection *)

Section Disconnect.

Variable verifyAccessToken : nat → string → bool.

#[local] Abbreviation step := (step verifyAccessToken).
#[local] Abbreviation run := (run verifyAccessToken).


End Disconnect.



(** ** Rosters *)

Lemma js_set_two a1 c1 a2 c2 :
  a1 ≠ "__proto__" → a2 ≠ "__proto__" →
  let users := js_set a2 c2 (js_set a1 c1 []) in
  if decide (a1 = a2) then users = [(a2, c2)]
  else length users = 2 ∧ (a1, c1) ∈ users ∧ (a2, c2) ∈ users.
Proof.
  intros H1 H2. cbv zeta. unfold js_set.
  destruct (decide (a1 = "__proto__")) as [|_]; [done|].
  destruct (decide (a2 = "__proto__")) as [|_]; [done|].
  unfold js_has. simpl. destruct (decide (a1 = a2)) as [->|Hne].
  - by rewrite bool_decide_eq_true_2 by set_solver.
  - rewrite bool_decide_eq_false_2 by set_solver. simpl.
    destruct (key_before a2 a1); simpl; set_solver.
Qed.

Section Rosters.

Variable verifyAccessToken : nat → string → bool.

#[local] Abbreviation dispatch := (dispatch verifyAccessToken).
#[local] Abbreviation middleware := (middleware verifyAccessToken).

(** C5, as amended.  Two connections join a room that has no member,
    with author names that are truthy and are not ["__proto__"].  The
    [online_users] emitted by the second join carries a roster with exactly
    two entries, one per connection, when the names differ, and with the
    single entry of the second connection when the names are equal. *)
Theorem two_joins_roster now1 now2 io c1 c2 s1 s2 r a1 a2 :
  wf io →
  sockets io !! c1 = Some s1 → sockets io !! c2 = Some s2 → c1 ≠ c2 →
  middleware now1 s1 = true → middleware now2 s2 = true →
  members io r = [] →
  truthy a1 = true → truthy a2 = true →
  a1 ≠ "__proto__" → a2 ≠ "__proto__" →
  ∃ io1 out1 io2 out2 roster,
    dispatch now1 io c1 (join_room r a1) = (io1, out1) ∧
    dispatch now2 io1 c2 (join_room r a2) = (io2, out2) ∧
    rosters out2 = [roster] ∧
    if decide (a1 = a2)
    then roster = [{| username := a2; socketId := c2 |}]
    else length roster = 2 ∧
         {| username := a1; socketId := c1 |} ∈ roster ∧
         {| username := a2; socketId := c2 |} ∈ roster.
Proof.
  intros Hwf Hs1 Hs2 Hne Hm1 Hm2 Hempty Ht1 Ht2 Hp1 Hp2.
  set (io1 := (on_join_room io c1 r a1).1).
  set (io2 := (on_join_room io1 c2 r a2).1).
  assert (Hl1 : sockets io1 !! c2 = Some s2).
  { unfold io1. by rewrite sockets_join_other. }
  exists io1, (Handled c1 (join_room r a1) :: (on_join_room io c1 r a1).2),
         io2, (Handled c2 (join_room r a2) :: (on_join_room io1 c2 r a2).2),
         (presence io2 r).
  split; [by erewrite dispatch_accepted|].
  split; [by erewrite dispatch_accepted|].
  split; [done|].
  assert (Hmem1 : members io1 r = [c1]).
  { unfold io1. simpl. rewrite members_set_data, members_addAll.
    rewrite decide_True by done. rewrite Hempty.
    by rewrite bool_decide_eq_false_2 by apply not_elem_of_nil. }
  assert (Hmem2 : members io2 r = [c1; c2]).
  { unfold io2. simpl. rewrite members_set_data, members_addAll.
    rewrite decide_True by done. rewrite Hmem1.
    by rewrite bool_decide_eq_false_2 by set_solver. }
  set (t1 := {| id := id s1; handshake_token := handshake_token s1;
                data := {| data_room := Some r; data_author := Some a1 |} |}).
  set (t2 := {| id := id s2; handshake_token := handshake_token s2;
                data := {| data_room := Some r; data_author := Some a2 |} |}).
  assert (H21 : sockets io2 !! c1 = Some t1).
  { unfold io2. rewrite sockets_join_other by done.
    unfold io1. by rewrite sockets_join_self, Hs1. }
  assert (H22 : sockets io2 !! c2 = Some t2).
  { unfold io2. by rewrite sockets_join_self, Hl1. }
  assert (Hf : fetchSockets io2 r = [t1; t2]).
  { unfold fetchSockets, apply. rewrite Hmem2.
    rewrite filter_all by (intros; apply not_elem_of_nil).
    cbn [omap list_omap]. by rewrite H21, H22. }
  assert (Hi1 : id t1 = c1) by exact (wf_id io Hwf c1 s1 Hs1).
  assert (Hi2 : id t2 = c2) by exact (wf_id io Hwf c2 s2 Hs2).
  pose proof (js_set_two a1 c1 a2 c2 Hp1 Hp2) as Htwo. simpl in Htwo.
  assert (Hu : users_of io2 r = js_set a2 c2 (js_set a1 c1 [])).
  { unfold users_of, build_users. rewrite Hf. simpl. unfold add_user.
    rewrite Hi1, Hi2. simpl. by rewrite Ht1, Ht2. }
  unfold presence. rewrite Hu. destruct (decide (a1 = a2)).
  - by rewrite Htwo.
  - destruct Htwo as (Hlen & Hin1 & Hin2).
    split; [unfold entries; by rewrite length_fmap|].
    by rewrite !entries_elem.
Qed.

End Rosters.

Lemma two_joins_roster_witness :
  ∃ io1 out1 io2 out2 roster,
    dispatch demo_verify 0 demo_connected "c1" (join_room "general" "alice")
      = (io1, out1) ∧
    dispatch demo_verify 1 io1 "c2" (join_room "general" "bob")
      = (io2, out2) ∧
    rosters out2 = [roster] ∧
    length roster = 2 ∧
    {| username := "alice"; socketId := "c1" |} ∈ roster ∧
    {| username := "bob"; socketId := "c2" |} ∈ roster.
Proof.
  apply (two_joins_roster demo_verify 0 1 demo_connected "c1" "c2"
           (demo_fresh "c1") (demo_fresh "c2") "general" "alice" "bob").
  - wf_scenario.
  - computed.
  - computed.
  - discriminate.
  - reflexivity.
  - reflexivity.
  - reflexivity.
  - reflexivity.
  - reflexivity.
  - discriminate.
  - discriminate.
Defined.

(** ["c1"] joined with the empty author name and ["c2"] joins the same room
    as ["bob"]: the names differ and the roster has one entry. *)
Lemma distinct_authors_single_entry :
  (data_author ∘ data <$> sockets demo_blank_author !! "c1") = Some (Some "") ∧
  members demo_blank_author "general" = ["c1"] ∧
  rosters (dispatch demo_verify 1 demo_blank_author "c2"
             (join_room "general" "bob")).2
    = [[{| username := "bob"; socketId := "c2" |}]].
Proof. repeat split; computed. Qed.

Lemma members_join_same io sid r a :
  members (on_join_room io sid r a).1 r =
    if bool_decide (sid ∈ members io r) then members io r
    else members io r ++ [sid].
Proof.
  simpl. rewrite members_set_data, members_addAll. by rewrite decide_True.
Qed.

(** After a join the other sockets of the room are those it had before. *)
Lemma fetchSockets_join_others io sid r a t :
  wf io → is_Some (sockets io !! sid) →
  t ∈ fetchSockets (on_join_room io sid r a).1 r → id t ≠ sid →
  t ∈ fetchSockets io r.
Proof.
  intros Hwf Hlive Ht Hid.
  pose proof (wf_on_join_room io sid r a Hwf Hlive) as Hwf'.
  apply fetchSockets_id in Ht as [Hin Hl]; [|done].
  rewrite sockets_join_other in Hl by done.
  rewrite members_join_same in Hin.
  eapply fetchSockets_elem; [|done].
  case_bool_decide; [done|].
  apply elem_of_app in Hin as [?|Hin]; [done|].
  by apply list_elem_of_singleton in Hin.
Qed.

Lemma fetchSockets_join_new io sid s r a :
  sockets io !! sid = Some s → sid ∉ members io r →
  ∃ l1 t, fetchSockets (on_join_room io sid r a).1 r = l1 ++ [t] ∧
          id t = id s ∧ data_author (data t) = Some a.
Proof.
  intros Hs Hnew.
  eexists _, {| id := id s; handshake_token := handshake_token s;
                data := {| data_room := Some r; data_author := Some a |} |}.
  split; [|done]. unfold fetchSockets, apply.
  rewrite members_join_same, bool_decide_eq_false_2 by done.
  rewrite filter_app, omap_app.
  rewrite (filter_all _ [sid]) by (intros; apply not_elem_of_nil).
  cbn [omap list_omap]. by rewrite sockets_join_self, Hs.
Qed.

Section Listing.

Variable verifyAccessToken : nat → string → bool.

#[local] Abbreviation dispatch := (dispatch verifyAccessToken).
#[local] Abbreviation middleware := (middleware verifyAccessToken).

(** C6, as amended.  A connection [sid] joins room [r] with an author
    name [a] that is truthy and is not ["__proto__"].  The [online_users]
    payload of the join is the list of [{username, socketId}] pairs of the
    [users] object computed for [r].  It contains [{a, sid}] when the
    connection was not in the room before, and also when no other member
    of the room carries the name [a].  In any later state, the roster
    computed for [r] contains [{a, sid}] as long as the connection is still
    enumerated in [r] with author [a] and no member enumerated after it
    carries the same name. *)
Theorem join_room_listed now io sid s r a :
  wf io →
  sockets io !! sid = Some s →
  middleware now s = true →
  truthy a = true →
  a ≠ "__proto__" →
  ∃ io' out,
    dispatch now io sid (join_room r a) = (io', out) ∧
    rosters out = [entries (users_of io' r)] ∧
    (sid ∉ members io r →
     {| username := a; socketId := sid |} ∈ entries (users_of io' r)) ∧
    ((∀ t, t ∈ fetchSockets io r → id t ≠ sid →
           data_author (data t) ≠ Some a) →
     {| username := a; socketId := sid |} ∈ entries (users_of io' r)) ∧
    (∀ io'' l1 t l2,
       fetchSockets io'' r = l1 ++ t :: l2 →
       id t = sid → data_author (data t) = Some a →
       (∀ t', t' ∈ l2 → data_author (data t') ≠ Some a) →
       {| username := a; socketId := sid |} ∈ entries (users_of io'' r)).
Proof.
  intros Hwf Hs Hm Ht Hp.
  assert (Hlive : is_Some (sockets io !! sid)) by (by exists s).
  pose proof (wf_on_join_room io sid r a Hwf Hlive) as Hwf'.
  exists (on_join_room io sid r a).1,
         (Handled sid (join_room r a) :: (on_join_room io sid r a).2).
  split; [by erewrite dispatch_accepted|].
  split; [done|].
  split; [|split].
  - intros Hnew.
    destruct (fetchSockets_join_new io sid s r a Hs Hnew)
      as (l1 & t & Hsplit & Hid & Ha).
    rewrite (wf_id io Hwf sid s Hs) in Hid.
    pose proof (presence_lists_last _ r l1 t [] a Hsplit Ha Ht Hp) as Hlast.
    rewrite Hid in Hlast. apply Hlast. by intros t' ?%elem_of_nil.
  - intros Hothers.
    eapply (presence_lists _ r sid); [done| |..|done|done|].
    + by rewrite sockets_join_self, Hs.
    + rewrite members_join_same. case_bool_decide; [done|].
      apply elem_of_app. right. by left.
    + done.
    + intros t Hin Hid. apply Hothers; [|done].
      by eapply fetchSockets_join_others.
  - intros io'' l1 t l2 Hsplit <- Ha Hl2.
    by eapply presence_lists_last.
Qed.

End Listing.

Lemma join_room_listed_witness :
  ∃ io' out,
    dispatch demo_verify 0 demo_connected "c1" (join_room "general" "alice")
      = (io', out) ∧
    rosters out = [entries (users_of io' "general")] ∧
    {| username := "alice"; socketId := "c1" |}
      ∈ entries (users_of io' "general") ∧
    {| username := "alice"; socketId := "c1" |}
      ∈ entries (users_of demo_two "general").
Proof.
  destruct (join_room_listed demo_verify 0 demo_connected "c1"
              (demo_fresh "c1") "general" "alice")
    as (io' & out & Hd & Hr & Hnew & _ & Hlater).
  - wf_scenario.
  - computed.
  - reflexivity.
  - reflexivity.
  - discriminate.
  - exists io', out. split; [assumption|]. split; [assumption|]. split.
    + apply Hnew. vm_compute. by intros ?%elem_of_nil.
    + apply (Hlater demo_two [] demo_alice [demo_bob]).
      * computed.
      * reflexivity.
      * reflexivity.
      * intros t' Hin. apply list_elem_of_singleton in Hin. by subst.
Defined.

(** ["c1"] joined room ["general"] as ["alice"]; when ["c2"] joins the same
    room under the same name, the [online_users] broadcast of the room has
    no entry for ["c1"]. *)
Lemma same_author_hides_first :
  ∃ roster,
    rosters (dispatch demo_verify 1 demo_alice_in "c2"
               (join_room "general" "alice")).2 = [roster] ∧
    {| username := "alice"; socketId := "c1" |} ∉ roster.
Proof.
  exists [{| username := "alice"; socketId := "c2" |}].
  split; [vm_compute; reflexivity|].
  by intros [?|?%elem_of_nil]%elem_of_cons.
Qed.

(** ** Relays *)

Lemma received_one_emit c rcpts msg :
  received c [Emit rcpts msg] = if bool_decide (c ∈ rcpts) then [msg] else [].
Proof. unfold received. simpl. by rewrite app_nil_r. Qed.

Lemma filter_none {A} (P : A → Prop) `{!∀ x, Decision (P x)} (l : list A) :
  (∀ x, x ∈ l → ¬ P x) → filter P l = [].
Proof.
  induction l as [|x l IH]; intros Hl; [done|].
  rewrite filter_cons_False by set_solver. apply IH. set_solver.
Qed.

Section Relays.

Variable verifyAccessToken : nat → string → bool.

#[local] Abbreviation dispatch := (dispatch verifyAccessToken).
#[local] Abbreviation middleware := (middleware verifyAccessToken).

(** C7, as amended.  [send_message] leaves the state as it is and makes
    one emission, [receive_message] with the payload it was given.  Its
    recipients are the members of the room [room P] that are not in the
    room named by the sender's id: every other member of the room, unless
    it has joined a room named like the sender's id.  Each recipient is
    written that one message; the sender is written nothing. *)
Theorem send_message_relayed now io sid s P :
  wf io →
  sockets io !! sid = Some s →
  middleware now s = true →
  ∃ rcpts out,
    dispatch now io sid (send_message P) = (io, out) ∧
    out = [Handled sid (send_message P); Emit rcpts (receive_message P)] ∧
    (∀ c, c ∈ rcpts ↔ c ∈ members io (room P) ∧ c ∉ members io sid) ∧
    (members io sid = [sid] →
     ∀ c, c ∈ members io (room P) → c ≠ sid → c ∈ rcpts) ∧
    (∀ c, c ∈ rcpts → received c out = [receive_message P]) ∧
    received sid out = [].
Proof.
  intros Hwf Hs Hm.
  exists (filter (λ i, i ∉ members io sid) (members io (room P))).
  eexists. split; [|split; [reflexivity|]].
  { erewrite dispatch_accepted by done. simpl. by rewrite to_emit_ids. }
  split; [|split; [|split]].
  - intros c. rewrite list_elem_of_filter. naive_solver.
  - intros Hown c Hc Hne. apply list_elem_of_filter. split; [|done].
    rewrite Hown. by intros ?%list_elem_of_singleton.
  - intros c Hc. rewrite received_cons, received_one_emit.
    by rewrite bool_decide_eq_true_2.
  - rewrite received_cons, received_one_emit.
    rewrite bool_decide_eq_false_2; [done|]. by eapply to_emit_not_self.
Qed.


(** C10.  A [private_message] whose [toSocketId] is the sender's own id
    is handled by its listener and delivers nothing: its one emission has
    no recipient, so neither the sender nor any other connection is written
    [receive_private_message]; no [status] is emitted and the namespace is
    unchanged, the sender staying connected. *)
Theorem private_message_to_self now io sid s M :
  sockets io !! sid = Some s →
  middleware now s = true →
  dispatch now io sid (private_message sid M) =
    (io, [Handled sid (private_message sid M);
          Emit [] (receive_private_message M)]) ∧
  ∀ c, received c (dispatch now io sid (private_message sid M)).2 = [].
Proof.
  intros Hs Hm.
  assert (Hd : dispatch now io sid (private_message sid M) =
               (io, [Handled sid (private_message sid M);
                     Emit [] (receive_private_message M)])).
  { erewrite dispatch_accepted by done. simpl. unfold to_emit, apply.
    rewrite computeExceptSids_one, filter_none; [done|]. naive_solver. }
  split; [done|]. intros c. by rewrite Hd.
Qed.

End Relays.

Lemma send_message_relayed_witness :
  ∃ rcpts out,
    dispatch demo_verify 2 demo_two "c1" (send_message demo_msg)
      = (demo_two, out) ∧
    out = [Handled "c1" (send_message demo_msg);
           Emit rcpts (receive_message demo_msg)] ∧
    (∀ c, c ∈ rcpts ↔
          c ∈ members demo_two (room demo_msg) ∧ c ∉ members demo_two "c1") ∧
    "c2" ∈ rcpts ∧
    (∀ c, c ∈ rcpts → received c out = [receive_message demo_msg]) ∧
    received "c1" out = [].
Proof.
  destruct (send_message_relayed demo_verify 2 demo_two "c1" demo_alice demo_msg)
    as (rcpts & out & Hd & Hout & Hchar & Hall & Hrecv & Hself).
  - wf_scenario.
  - computed.
  - reflexivity.
  - exists rcpts, out. repeat (split; [assumption|]).
    split; [|split; assumption]. apply Hall.
    + computed.
    + vm_compute. apply list_elem_of_further, list_elem_of_here.
    + discriminate.
Defined.

(** ["c2"] is in room ["general"] and has also joined the room named
    ["c1"]; a [send_message] of ["c1"] to ["general"] is not written to it. *)
Lemma send_message_skips_sender_room :
  "c2" ∈ members demo_shadow "general" ∧
  (dispatch demo_verify 3 demo_shadow "c1" (send_message demo_msg)).2
    = [Handled "c1" (send_message demo_msg); Emit [] (receive_message demo_msg)].
Proof.
  split.
  - vm_compute. apply list_elem_of_further, list_elem_of_here.
  - computed.
Qed.



Lemma private_message_to_self_witness :
  dispatch demo_verify 2 demo_two "c1" (private_message "c1" demo_msg) =
    (demo_two, [Handled "c1" (private_message "c1" demo_msg);
                Emit [] (receive_private_message demo_msg)]) ∧
  ∀ c, received c (dispatch demo_verify 2 demo_two "c1"
                     (private_message "c1" demo_msg)).2 = [].
Proof.
  apply (private_message_to_self demo_verify 2 demo_two "c1" demo_alice).
  - computed.
  - reflexivity.
Defined.

(** ** Authors that are unset or empty *)

Lemma users_of_only_truthy io r : only_truthy (fetchSockets io r) (users_of io r).
Proof.
  intros k v (t & ? & ? & ? & ?)%build_users_only. by exists t.
Qed.

Lemma users_of_omits_falsy io r :
  wf io → omits_falsy (fetchSockets io r) (users_of io r).
Proof.
  intros Hwf t Ht Hfalsy k v (t' & Ht' & Ha & Htr & Hid)%build_users_only Heq.
  apply fetchSockets_id in Ht as [_ Hl]; [|done].
  apply fetchSockets_id in Ht' as [_ Hl']; [|done].
  assert (t' = t) as -> by congruence.
  rewrite Ha in Hfalsy. simpl in Hfalsy. congruence.
Qed.

(** C9.  Both presence recomputations, the one of [join_room] and the one
    of ['disconnect'], build [users] from the sockets fetched for the room
    and emit it twice, as the [online_users] roster and inside
    [user_joined] or [user_left].  Every key of that object is the truthy
    author of a fetched socket, mapped to the id of that socket; a fetched
    socket whose author is unset or is the empty string is the value of no
    key, so it appears neither in the [users] object nor in the roster. *)
Theorem presence_only_truthy_authors io sid s :
  wf io →
  sockets io !! sid = Some s →
  (∀ r a, ∃ io' users,
     on_join_room io sid r a =
       (io', [Emit (members io' r) (online_users (entries users));
              Emit (members io' r) (user_joined a sid users)]) ∧
     only_truthy (fetchSockets io' r) users ∧
     omits_falsy (fetchSockets io' r) users ∧
     ∀ t p, t ∈ fetchSockets io' r →
            truthy_opt (data_author (data t)) = false →
            p ∈ entries users → socketId p ≠ id t) ∧
  (∀ r, data_room (data s) = Some r → truthy r = true →
     ∃ io' users,
       onclose io sid =
         (io', [Emit (members io' r) (online_users (entries users));
                Emit (members io' r)
                     (user_left (data_author (data s)) users)]) ∧
       only_truthy (fetchSockets io' r) users ∧
       omits_falsy (fetchSockets io' r) users ∧
       ∀ t p, t ∈ fetchSockets io' r →
              truthy_opt (data_author (data t)) = false →
              p ∈ entries users → socketId p ≠ id t).
Proof.
  intros Hwf Hs. split.
  - intros r a.
    assert (Hlive : is_Some (sockets io !! sid)) by (by exists s).
    pose proof (wf_on_join_room io sid r a Hwf Hlive) as Hwf'.
    destruct (join_room_effects io sid r a Hwf Hlive) as [Hout _].
    exists (on_join_room io sid r a).1, (users_of (on_join_room io sid r a).1 r).
    split; [|split; [|split]].
    + rewrite (surjective_pairing (on_join_room io sid r a)) at 1.
      by rewrite Hout.
    + apply users_of_only_truthy.
    + by apply users_of_omits_falsy.
    + intros t p Ht Hf Hp%entries_elem.
      by eapply users_of_omits_falsy.
  - intros r Hr Htr.
    pose proof (wf_onclose io sid Hwf) as Hwf'.
    pose proof (onclose_effects io sid s Hwf Hs) as Hout.
    rewrite Hr, Htr in Hout. simpl in Hout.
    exists (onclose io sid).1, (users_of (onclose io sid).1 r).
    split; [|split; [|split]].
    + rewrite (surjective_pairing (onclose io sid)) at 1. by rewrite Hout.
    + apply users_of_only_truthy.
    + by apply users_of_omits_falsy.
    + intros t p Ht Hf Hp%entries_elem.
      by eapply users_of_omits_falsy.
Qed.

Lemma presence_only_truthy_authors_witness :
  (∃ io' users,
     on_join_room demo_anonymous "c1" "general" "alice" =
       (io', [Emit (members io' "general") (online_users (entries users));
              Emit (members io' "general") (user_joined "alice" "c1" users)]) ∧
     only_truthy (fetchSockets io' "general") users ∧
     omits_falsy (fetchSockets io' "general") users ∧
     ∀ t p, t ∈ fetchSockets io' "general" →
            truthy_opt (data_author (data t)) = false →
            p ∈ entries users → socketId p ≠ id t) ∧
  (∃ io' users,
     onclose demo_anonymous "c1" =
       (io', [Emit (members io' "general") (online_users (entries users));
              Emit (members io' "general")
                   (user_left (data_author (data demo_alice)) users)]) ∧
     only_truthy (fetchSockets io' "general") users ∧
     omits_falsy (fetchSockets io' "general") users ∧
     ∀ t p, t ∈ fetchSockets io' "general" →
            truthy_opt (data_author (data t)) = false →
            p ∈ entries users → socketId p ≠ id t).
Proof.
  destruct (presence_only_truthy_authors demo_anonymous "c1" demo_alice)
    as [Hjoin Hclose].
  - wf_scenario.
  - computed.
  - split.
    + apply Hjoin.
    + apply Hclose; reflexivity.
Defined.

(** * Further properties of the listeners *)

(** ** Rooms only grow while a socket is connected *)

Lemma members_addAll_mono sid r io r' i :
  i ∈ members io r' → i ∈ members (addAll sid r io) r'.
Proof.
  intros Hi. rewrite members_addAll.
  destruct (decide (r' = r)) as [->|]; [|done].
  case_bool_decide; [done|]. apply elem_of_app. by left.
Qed.

Lemma members_connect_mono io sid token r i :
  i ∈ members io r → i ∈ members (connect io sid token) r.
Proof.
  intros Hi. unfold connect. destruct (sockets io !! sid); [done|].
  by apply members_addAll_mono.
Qed.

Lemma members_listener_mono io sid ev r i :
  i ∈ members io r → i ∈ members (listener io sid ev).1 r.
Proof.
  intros Hi. destruct ev; try done. simpl.
  rewrite members_set_data. by apply members_addAll_mono.
Qed.

Lemma members_onclose io sid r :
  members (onclose io sid).1 r =
    if sockets io !! sid then filter (λ i, i ≠ sid) (members io r)
    else members io r.
Proof.
  unfold onclose. destruct (sockets io !! sid); [|done].
  apply (members_delAll sid io r).
Qed.

Lemma sockets_onclose_other io sid i :
  i ≠ sid → sockets (onclose io sid).1 !! i = sockets io !! i.
Proof.
  intros Hne. unfold onclose. destruct (sockets io !! sid); [|done].
  simpl. by rewrite lookup_delete_ne.
Qed.

Lemma sockets_connect_other io sid token i :
  i ≠ sid → sockets (connect io sid token) !! i = sockets io !! i.
Proof.
  intros Hne. unfold connect. destruct (sockets io !! sid); [done|].
  simpl. by rewrite lookup_insert_ne.
Qed.

Lemma sockets_listener_other io sid ev i :
  i ≠ sid → sockets (listener io sid ev).1 !! i = sockets io !! i.
Proof.
  intros Hne. destruct ev; try done. by apply sockets_join_other.
Qed.

(** ** The [data] of a socket *)

Lemma data_ok_init : data_ok chatIO_init.
Proof. intros sid s. simpl. by rewrite lookup_empty. Qed.

Lemma data_ok_connect io sid token : data_ok io → data_ok (connect io sid token).
Proof.
  intros Hok i s. destruct (decide (i = sid)) as [->|Hne].
  - unfold connect. destruct (sockets io !! sid) as [s0|] eqn:Hs0.
    + apply Hok.
    + simpl. rewrite lookup_insert_eq. by intros [= <-].
  - rewrite sockets_connect_other by done. intros Hs.
    specialize (Hok i s Hs).
    destruct (data_room (data s)), (data_author (data s)); try done.
    by apply members_connect_mono.
Qed.

Lemma data_ok_join_room io sid r a :
  data_ok io → is_Some (sockets io !! sid) → data_ok (on_join_room io sid r a).1.
Proof.
  intros Hok [s0 Hs0] i s. destruct (decide (i = sid)) as [->|Hne].
  - rewrite sockets_join_self, Hs0. intros [= <-]. cbn [data data_room data_author].
    rewrite members_join_same. case_bool_decide; [done|].
    apply elem_of_app. right. by left.
  - rewrite sockets_join_other by done. intros Hs.
    specialize (Hok i s Hs).
    destruct (data_room (data s)), (data_author (data s)); try done.
    by apply (members_listener_mono io sid (join_room r a)).
Qed.

Lemma data_ok_listener io sid ev :
  data_ok io → is_Some (sockets io !! sid) → data_ok (listener io sid ev).1.
Proof. intros Hok Hs. destruct ev; try done. by apply data_ok_join_room. Qed.

Lemma data_ok_onclose io sid : data_ok io → data_ok (onclose io sid).1.
Proof.
  intros Hok i s. destruct (decide (i = sid)) as [->|Hne].
  - rewrite dead_onclose; [done|by left].
  - rewrite sockets_onclose_other by done. intros Hs.
    specialize (Hok i s Hs).
    destruct (data_room (data s)), (data_author (data s)); try done.
    rewrite members_onclose. destruct (sockets io !! sid); [|done].
    by apply list_elem_of_filter.
Qed.

(** ** Invariants of a run *)

Section Runs.

Variable verifyAccessToken : nat → string → bool.

#[local] Abbreviation dispatch := (dispatch verifyAccessToken).
#[local] Abbreviation middleware := (middleware verifyAccessToken).
#[local] Abbreviation step := (step verifyAccessToken).
#[local] Abbreviation run := (run verifyAccessToken).

(** What every step keeps and every step's effects satisfy holds along a
    run. *)
Lemma run_invariant (Inv : Server → Prop) (P : Effect → Prop) :
  (∀ io i, Inv io → Inv (step io i).1) →
  (∀ io i, Inv io → Forall P (step io i).2) →
  ∀ tr io, Inv io → Inv (run io tr).1 ∧ Forall P (run io tr).2.
Proof.
  intros Hinv HP tr. induction tr as [|i tr IH]; intros io Hio; [done|].
  rewrite run_cons. simpl. destruct (IH (step io i).1) as [H1 H2]; [by apply Hinv|].
  split; [done|]. apply Forall_app. split; [by apply HP|done].
Qed.

Lemma step_cases io i :
  (∃ sid token, i = Connect sid token ∧ step io i = (connect io sid token, [])) ∨
  (∃ now sid ev s, i = Packet now sid ev ∧ sockets io !! sid = Some s ∧
     step io i = ((listener io sid ev).1, Handled sid ev :: (listener io sid ev).2)) ∨
  (∃ now sid ev s, i = Packet now sid ev ∧ sockets io !! sid = Some s ∧
     middleware now s = false ∧
     step io i = ((onclose io sid).1,
                  socket_emit sid (status "unauthorized") :: (onclose io sid).2)) ∨
  (∃ sid, i = Close sid ∧ step io i = onclose io sid) ∨
  step io i = (io, []).
Proof.
  destruct i as [sid tok|now sid ev|sid]; simpl.
  - left. by exists sid, tok.
  - destruct (sockets io !! sid) as [s|] eqn:Hs.
    + destruct (middleware now s) eqn:Hm.
      * right. left. exists now, sid, ev, s. by erewrite dispatch_accepted.
      * right. right. left. exists now, sid, ev, s.
        by erewrite dispatch_rejected.
    + do 4 right. by apply dispatch_dead.
  - do 3 right. left. by exists sid.
Qed.

Lemma data_ok_step io i : data_ok io → data_ok (step io i).1.
Proof.
  intros Hok.
  destruct (step_cases io i)
    as [(sid & tok & -> & ->)|[(now & sid & ev & s & -> & Hs & ->)|
        [(now & sid & ev & s & -> & Hs & Hm & ->)|[(sid & -> & ->)| ->]]]].
  - by apply data_ok_connect.
  - apply data_ok_listener; [done|by exists s].
  - by apply data_ok_onclose.
  - by apply data_ok_onclose.
  - done.
Qed.

Lemma dead_run tr io sid :
  sockets io !! sid = None → Forall (not_connecting sid) tr →
  sockets (run io tr).1 !! sid = None.
Proof.
  revert io. induction tr as [|i tr IH]; intros io Hdead Htr; [done|].
  apply Forall_cons in Htr as [Hi Htr]. rewrite run_cons. simpl.
  apply IH; [|done]. by apply dead_step.
Qed.

Lemma members_step_kept io i sid r :
  sid ∈ members io r → is_Some (sockets (step io i).1 !! sid) →
  sid ∈ members (step io i).1 r.
Proof.
  intros Hin Hlive.
  assert (Hclose : ∀ sid', is_Some (sockets (onclose io sid').1 !! sid) →
                           sid ∈ members (onclose io sid').1 r).
  { intros sid' [s' Hs']. rewrite members_onclose.
    destruct (sockets io !! sid') eqn:Hc; [|done].
    apply list_elem_of_filter. split; [|done]. intros ->.
    rewrite dead_onclose in Hs'; [done|by left]. }
  destruct (step_cases io i)
    as [(sid' & tok & -> & Hst)|[(now & sid' & ev & s & -> & Hs & Hst)|
        [(now & sid' & ev & s & -> & Hs & Hm & Hst)|[(sid' & -> & Hst)|Hst]]]];
    rewrite Hst in *; simpl in *.
  - by apply members_connect_mono.
  - by apply members_listener_mono.
  - by apply Hclose.
  - by apply Hclose.
  - done.
Qed.



(** X3.  Nothing but its own disconnect takes a connection out of a room:
    a connection that is in room [r] and is still connected at the end of a
    run, during which the transport did not hand out its id anew, is still
    in room [r]. *)
Theorem membership_kept_while_connected tr io sid r :
  sid ∈ members io r →
  Forall (not_connecting sid) tr →
  is_Some (sockets (run io tr).1 !! sid) →
  sid ∈ members (run io tr).1 r.
Proof.
  revert io. induction tr as [|i tr IH]; intros io Hin Htr Hlive; [done|].
  apply Forall_cons in Htr as [Hi Htr]. rewrite run_cons in *. simpl in *.
  apply IH; [|done..]. apply members_step_kept; [done|].
  destruct (sockets (step io i).1 !! sid) eqn:Hs; [done|].
  rewrite (dead_run tr _ sid Hs Htr) in Hlive. by destruct Hlive.
Qed.

End Runs.


Lemma membership_kept_while_connected_witness :
  "c1" ∈ members
           (run demo_verify demo_joined
              [Connect "c2" (Some "good");
               Packet 1 "c1" (join_room "other" "al2");
               Packet 2 "c2" (join_room "general" "bob");
               Close "c2"]).1 "general".
Proof.
  apply membership_kept_while_connected.
  - vm_compute. apply list_elem_of_here.
  - repeat constructor; discriminate.
  - vm_compute. eexists. reflexivity.
Defined.

(** ** Relaying listeners *)

Lemma apply_ids_set_data io sid d r except :
  id <$> apply (set_data sid d io) r except = id <$> apply io r except.
Proof.
  unfold apply.
  change (computeExceptSids (set_data sid d io) except)
    with (computeExceptSids io except).
  rewrite members_set_data.
  induction (filter _ (members io r)) as [|i l IH]; [done|].
  cbn [omap list_omap]. simpl sockets. rewrite lookup_alter.
  destruct (decide (sid = i)) as [->|].
  - destruct (sockets io !! i); simpl; [by f_equal|done].
  - destruct (sockets io !! i); simpl; [by f_equal|done].
Qed.

Section Relaying.

Variable verifyAccessToken : nat → string → bool.

#[local] Abbreviation dispatch := (dispatch verifyAccessToken).
#[local] Abbreviation middleware := (middleware verifyAccessToken).

(** X4.  [typing], [stop_typing], [message_read] and [react_message] leave
    the namespace as it is and make one emission each, to the members of the
    room named in the payload that are not in the room named by the sender's
    id: the author name alone for the two typing events, [{messageId,
    reader}] and [{messageId, emoji, reactor}] for the other two.  The room
    name is not relayed. *)
Theorem indicators_relayed now io sid s r :
  wf io →
  sockets io !! sid = Some s →
  middleware now s = true →
  let rcpts := filter (λ i, i ∉ members io sid) (members io r) in
  (∀ a, dispatch now io sid (typing r a) =
          (io, [Handled sid (typing r a); Emit rcpts (user_typing a)])) ∧
  (∀ a, dispatch now io sid (stop_typing r a) =
          (io, [Handled sid (stop_typing r a);
                Emit rcpts (user_stop_typing a)])) ∧
  (∀ mid reader,
     dispatch now io sid (message_read r mid reader) =
       (io, [Handled sid (message_read r mid reader);
             Emit rcpts (update_read_receipts mid reader)])) ∧
  (∀ mid emoji reactor,
     dispatch now io sid (react_message r mid emoji reactor) =
       (io, [Handled sid (react_message r mid emoji reactor);
             Emit rcpts (update_reactions mid emoji reactor)])) ∧
  sid ∉ rcpts.
Proof.
  intros Hwf Hs Hm rcpts.
  repeat split; intros;
    try (erewrite dispatch_accepted by done; simpl; by rewrite to_emit_ids).
  by eapply to_emit_not_self.
Qed.

(** X5.  Relaying asks for no membership: a connection that never joined
    room [r], and whose own room holds it alone, reaches every member of
    [r] with any of the six relaying events. *)
Theorem relay_needs_no_membership now io sid s ev r :
  wf io →
  sockets io !! sid = Some s →
  middleware now s = true →
  relay_room ev = Some r →
  sid ∉ members io r →
  members io sid = [sid] →
  ∃ msg, dispatch now io sid ev = (io, [Handled sid ev; Emit (members io r) msg]).
Proof.
  intros Hwf Hs Hm Hev Hout Hown.
  assert (Hall : filter (λ i, i ∉ members io sid) (members io r) = members io r).
  { apply filter_all. intros i Hi. rewrite Hown.
    intros ->%list_elem_of_singleton. done. }
  destruct ev; simplify_eq/=; eexists;
    erewrite dispatch_accepted by done; simpl;
    by rewrite to_emit_ids, Hall.
Qed.

(** X6.  The relaying listeners read nothing of [socket.data]: whatever
    [room] and [author] any socket carries, the same packet gives the same
    effects.  The author, reader or reactor that is relayed is the one of the
    payload. *)
Theorem relay_reads_no_socket_data now io sid s ev r sid' d :
  sockets io !! sid = Some s →
  middleware now s = true →
  relay_room ev = Some r →
  (dispatch now (set_data sid' d io) sid ev).2 = (dispatch now io sid ev).2.
Proof.
  intros Hs Hm Hev.
  assert (Hs' : ∃ s', sockets (set_data sid' d io) !! sid = Some s' ∧
                      middleware now s' = true).
  { simpl. rewrite lookup_alter. case_decide; subst; rewrite Hs; simpl;
      by eexists. }
  destruct Hs' as (s' & Hs' & Hm').
  erewrite !dispatch_accepted by done.
  destruct ev; simplify_eq/=; unfold to_emit;
    by rewrite apply_ids_set_data.
Qed.


(** X8.  A packet that is rejected on a connection that has joined a room
    makes the room see it leave: after the [status] to the sender, the
    members the room is left with are sent the recomputed [online_users] and
    a [user_left] with the connection's author, and the namespace reached is
    the one a transport close reaches. *)
Theorem rejected_packet_announces_leave now io sid s ev r :
  wf io →
  sockets io !! sid = Some s →
  middleware now s = false →
  data_room (data s) = Some r →
  truthy r = true →
  ∃ io',
    dispatch now io sid ev =
      (io', [Emit [sid] (status "unauthorized");
             Emit (members io' r) (online_users (presence io' r));
             Emit (members io' r)
                  (user_left (data_author (data s)) (users_of io' r))]) ∧
    io' = (step verifyAccessToken io (Close sid)).1 ∧
    members io' r = filter (λ i, i ≠ sid) (members io r).
Proof.
  intros Hwf Hs Hm Hr Ht. exists (onclose io sid).1.
  pose proof (onclose_effects io sid s Hwf Hs) as Hout.
  rewrite Hr, Ht in Hout. simpl in Hout.
  split; [|split; [done|]].
  - erewrite dispatch_rejected by done. by rewrite Hout.
  - by rewrite members_onclose, Hs.
Qed.

End Relaying.

Lemma indicators_relayed_witness :
  (∀ a, dispatch demo_verify 2 demo_two "c1" (typing "general" a) =
          (demo_two, [Handled "c1" (typing "general" a);
                      Emit ["c2"] (user_typing a)])) ∧
  (∀ a, dispatch demo_verify 2 demo_two "c1" (stop_typing "general" a) =
          (demo_two, [Handled "c1" (stop_typing "general" a);
                      Emit ["c2"] (user_stop_typing a)])) ∧
  (∀ mid reader,
     dispatch demo_verify 2 demo_two "c1" (message_read "general" mid reader) =
       (demo_two, [Handled "c1" (message_read "general" mid reader);
                   Emit ["c2"] (update_read_receipts mid reader)])) ∧
  (∀ mid emoji reactor,
     dispatch demo_verify 2 demo_two "c1"
       (react_message "general" mid emoji reactor) =
       (demo_two, [Handled "c1" (react_message "general" mid emoji reactor);
                   Emit ["c2"] (update_reactions mid emoji reactor)])) ∧
  "c1" ∉ ["c2"].
Proof.
  apply (indicators_relayed demo_verify 2 demo_two "c1" demo_alice "general").
  - wf_scenario.
  - computed.
  - reflexivity.
Defined.

Lemma relay_needs_no_membership_witness :
  ∃ msg,
    dispatch demo_verify 1 demo_outsider "c3" (typing "general" "mallory") =
      (demo_outsider,
       [Handled "c3" (typing "general" "mallory");
        Emit (members demo_outsider "general") msg]).
Proof.
  apply (relay_needs_no_membership demo_verify 1 demo_outsider "c3"
           (demo_fresh "c3")).
  - wf_scenario.
  - computed.
  - reflexivity.
  - reflexivity.
  - vm_compute. by intros [?|?%elem_of_nil]%elem_of_cons.
  - computed.
Defined.

Lemma relay_reads_no_socket_data_witness :
  (dispatch demo_verify 2
     (set_data "c1" {| data_room := Some "other"; data_author := Some "zoe" |}
        demo_two)
     "c1" (typing "general" "alice")).2
  = (dispatch demo_verify 2 demo_two "c1" (typing "general" "alice")).2.
Proof.
  apply (relay_reads_no_socket_data demo_verify 2 demo_two "c1" demo_alice
           (typing "general" "alice") "general").
  - computed.
  - reflexivity.
  - reflexivity.
Defined.


Lemma rejected_packet_announces_leave_witness :
  ∃ io',
    dispatch demo_verify 11 demo_two "c1" (typing "general" "alice") =
      (io', [Emit ["c1"] (status "unauthorized");
             Emit (members io' "general")
                  (online_users (presence io' "general"));
             Emit (members io' "general")
                  (user_left (Some "alice") (users_of io' "general"))]) ∧
    io' = (step demo_verify demo_two (Close "c1")).1 ∧
    members io' "general" = filter (λ i, i ≠ "c1") (members demo_two "general").
Proof.
  apply (rejected_packet_announces_leave demo_verify 11 demo_two "c1" demo_alice).
  - wf_scenario.
  - computed.
  - reflexivity.
  - reflexivity.
  - reflexivity.
Defined.

(** ** What a close and a join leave alone *)

Lemma omap_lookup_filter (m m' : gmap string Socket) sid (l : list string) :
  (∀ i, i ≠ sid → m' !! i = m !! i) →
  (∀ i, i ∈ l → ∃ t, m !! i = Some t ∧ id t = i) →
  omap (λ i, m' !! i) (filter (λ i, i ≠ sid) l)
    = filter (λ t, id t ≠ sid) (omap (λ i, m !! i) l).
Proof.
  intros Hother. induction l as [|i l IH]; intros Hl; [done|].
  destruct (Hl i) as (t & Ht & Hid); [set_solver|].
  cbn [omap list_omap]. rewrite Ht. simpl.
  destruct (decide (i = sid)) as [Heq|Hne].
  - rewrite filter_cons_False by (intros ?; congruence).
    rewrite (filter_cons_False _ t) by (intros ?; congruence).
    apply IH. set_solver.
  - rewrite filter_cons_True by done.
    rewrite (filter_cons_True _ t) by congruence.
    cbn [omap list_omap]. rewrite Hother, Ht by done. simpl.
    f_equal. apply IH. set_solver.
Qed.

Lemma fetchSockets_unfold io r :
  fetchSockets io r = omap (λ i, sockets io !! i) (members io r).
Proof.
  unfold fetchSockets, apply. f_equal.
  apply filter_all. intros i _. apply not_elem_of_nil.
Qed.


Lemma received_two_emits c rc1 m1 rc2 m2 :
  received c [Emit rc1 m1; Emit rc2 m2] =
    (if bool_decide (c ∈ rc1) then [m1] else [])
    ++ (if bool_decide (c ∈ rc2) then [m2] else []).
Proof. unfold received. simpl. by rewrite app_nil_r. Qed.

(** X10.  The broadcasts of a disconnect stay in the room named by the
    [room] attribute of the connection that left, the room of its last
    [join_room]: a connection outside that room is written nothing, also
    when it shares an earlier room with the one that left. *)
Theorem disconnect_reaches_last_room_only io sid s c :
  wf io →
  sockets io !! sid = Some s →
  (∀ r, data_room (data s) = Some r → c ∉ members io r) →
  received c (onclose io sid).2 = [].
Proof.
  intros Hwf Hs Hc. rewrite (onclose_effects io sid s Hwf Hs).
  destruct (data_room (data s)) as [r|]; [|done].
  destruct (truthy r); [|done].
  rewrite received_two_emits, members_onclose, Hs.
  rewrite !bool_decide_eq_false_2; [done|..];
    intros [_ Hin]%list_elem_of_filter; by apply (Hc r).
Qed.

Section JoinAudience.

Variable verifyAccessToken : nat → string → bool.

#[local] Abbreviation dispatch := (dispatch verifyAccessToken).
#[local] Abbreviation middleware := (middleware verifyAccessToken).
#[local] Abbreviation step := (step verifyAccessToken).

(** X11.  A [join_room] is announced in the joined room and nowhere else:
    every member of the room, the joiner included, is written the
    [online_users] and then the [user_joined] of the join, and a connection
    outside the room is written nothing. *)
Theorem join_room_reaches_its_room now io sid s r a :
  wf io →
  sockets io !! sid = Some s →
  middleware now s = true →
  ∃ io' out,
    dispatch now io sid (join_room r a) = (io', out) ∧
    (∀ c, c ∈ members io' r →
          received c out = [online_users (presence io' r);
                            user_joined a sid (users_of io' r)]) ∧
    (∀ c, c ∉ members io' r → received c out = []) ∧
    (∀ c, c ∈ members io' r ↔ c ∈ members io r ∨ c = sid).
Proof.
  intros Hwf Hs Hm.
  assert (Hlive : is_Some (sockets io !! sid)) by (by exists s).
  destruct (join_room_effects io sid r a Hwf Hlive) as [Hout Hin].
  exists (on_join_room io sid r a).1,
         (Handled sid (join_room r a) :: (on_join_room io sid r a).2).
  split; [by erewrite dispatch_accepted|].
  rewrite Hout. split; [|split].
  - intros c Hc. rewrite received_cons, received_two_emits.
    by rewrite !bool_decide_eq_true_2.
  - intros c Hc. rewrite received_cons, received_two_emits.
    by rewrite !bool_decide_eq_false_2.
  - intros c. rewrite members_join_same. case_bool_decide.
    + split; [by left|]. by intros [?| ->].
    + rewrite elem_of_app, list_elem_of_singleton. done.
Qed.

(** X12.  No emission writes to the same connection twice: the recipients
    of every [emit] made by a step from a well-formed namespace are pairwise
    distinct. *)
Theorem recipients_are_distinct io i rcpts msg :
  wf io →
  Emit rcpts msg ∈ (step io i).2 →
  NoDup rcpts.
Proof.
  intros Hwf.
  assert (Hclose : ∀ sid, Emit rcpts msg ∈ (onclose io sid).2 → NoDup rcpts).
  { intros sid. pose proof (wf_onclose io sid Hwf) as Hwf'.
    destruct (sockets io !! sid) as [s|] eqn:Hs.
    - rewrite (onclose_effects io sid s Hwf Hs).
      destruct (data_room (data s)) as [r|]; [|by intros ?%elem_of_nil].
      destruct (truthy r); [|by intros ?%elem_of_nil].
      intros [Heq|[Heq|?%elem_of_nil]%elem_of_cons]%elem_of_cons; [..|done];
        simplify_eq; apply (wf_nodup _ Hwf').
    - unfold onclose. rewrite Hs. by intros ?%elem_of_nil. }
  destruct (step_cases verifyAccessToken io i)
    as [(sid' & tok & -> & ->)|[(now & sid' & ev & s & -> & Hs & ->)|
        [(now & sid' & ev & s & -> & Hs & Hm & ->)|[(sid' & -> & ->)| ->]]]];
    simpl.
  - by intros ?%elem_of_nil.
  - intros [?|Hin]%elem_of_cons; [done|].
    assert (Hlive : is_Some (sockets io !! sid')) by (by exists s).
    destruct ev as [r a| | | | | |]; simpl in Hin;
      try (rewrite to_emit_ids in Hin by done;
           apply list_elem_of_singleton in Hin; simplify_eq;
           apply NoDup_filter, (wf_nodup io Hwf)).
    pose proof (wf_on_join_room io sid' r a Hwf Hlive) as Hwf'.
    change (Emit rcpts msg ∈ (on_join_room io sid' r a).2) in Hin.
    destruct (join_room_effects io sid' r a Hwf Hlive) as [Hout _].
    rewrite Hout in Hin.
    apply elem_of_cons in Hin as [Heq|[Heq|?%elem_of_nil]%elem_of_cons];
      [..|done]; simplify_eq; apply (wf_nodup _ Hwf').
  - intros [Heq|Hin]%elem_of_cons; [|by apply (Hclose sid')].
    unfold socket_emit in Heq. simplify_eq. apply NoDup_singleton.
  - apply Hclose.
  - by intros ?%elem_of_nil.
Qed.

End JoinAudience.


(** ["c1"] went from ["general"] to ["other"] and is still listed in
    ["general"]; when it disconnects, ["c2"] in ["general"] is told
    nothing. *)
Lemma disconnect_reaches_last_room_only_witness :
  "c1" ∈ members demo_moved_two "general" ∧
  "c2" ∈ members demo_moved_two "general" ∧
  received "c2" (onclose demo_moved_two "c1").2 = [].
Proof.
  split; [vm_compute; apply list_elem_of_here|].
  split; [vm_compute; apply list_elem_of_further, list_elem_of_here|].
  apply (disconnect_reaches_last_room_only demo_moved_two "c1" demo_alice_moved).
  - wf_scenario.
  - computed.
  - intros r [= <-]. vm_compute. by intros [?|?%elem_of_nil]%elem_of_cons.
Defined.

Lemma join_room_reaches_its_room_witness :
  ∃ io' out,
    dispatch demo_verify 1 demo_alice_in "c2" (join_room "general" "bob")
      = (io', out) ∧
    (∀ c, c ∈ members io' "general" →
          received c out = [online_users (presence io' "general");
                            user_joined "bob" "c2" (users_of io' "general")]) ∧
    (∀ c, c ∉ members io' "general" → received c out = []) ∧
    (∀ c, c ∈ members io' "general" ↔
          c ∈ members demo_alice_in "general" ∨ c = "c2").
Proof.
  apply (join_room_reaches_its_room demo_verify 1 demo_alice_in "c2"
           (demo_fresh "c2")).
  - wf_scenario.
  - computed.
  - reflexivity.
Defined.

Lemma recipients_are_distinct_witness : NoDup ["c1"; "c2"].
Proof.
  apply (recipients_are_distinct demo_verify demo_alice_in
           (Packet 1 "c2" (join_room "general" "bob")) ["c1"; "c2"]
           (online_users [{| username := "alice"; socketId := "c1" |};
                          {| username := "bob"; socketId := "c2" |}])).
  - wf_scenario.
  - vm_compute. apply list_elem_of_further, list_elem_of_here.
Defined.

(** ** The roster *)

Lemma proto_never_a_key l v : ("__proto__", v) ∉ build_users l.
Proof.
  unfold build_users.
  cut (∀ users : list (string * string),
         ("__proto__", v) ∉ users → ("__proto__", v) ∉ foldl add_user users l).
  { intros H. apply H, not_elem_of_nil. }
  induction l as [|t l IH]; intros users Hu; [done|]. simpl. apply IH.
  unfold add_user. destruct (data_author (data t)) as [a|]; [|done].
  destruct (truthy a); [|done].
  destruct (decide (a = "__proto__")) as [->|Hne].
  - unfold js_set. by rewrite decide_True.
  - rewrite js_set_elem by done. naive_solver.
Qed.

Lemma js_insert_new_keys k v (m : list (string * string)) :
  k ∉ m.*1 → NoDup m.*1 → NoDup (js_insert_new k v m).*1.
Proof.
  induction m as [|[k' v'] m IH]; simpl; intros Hk Hnd.
  - apply NoDup_singleton.
  - destruct (key_before k k'); simpl.
    + by apply NoDup_cons.
    + apply NoDup_cons in Hnd as [Hk' Hnd].
      apply NoDup_cons. split; [|apply IH; [set_solver|done]].
      intros ((k0 & v0) & Heq & Hin)%list_elem_of_fmap. simpl in Heq. subst k0.
      apply js_insert_new_elem in Hin as [?|Hin]; [set_solver|].
      apply Hk'. apply list_elem_of_fmap. by exists (k', v0).
Qed.

Lemma js_set_keys k v (m : list (string * string)) :
  NoDup m.*1 → NoDup (js_set k v m).*1.
Proof.
  intros Hnd. unfold js_set, js_has.
  destruct (decide (k = "__proto__")); [done|].
  case_bool_decide as Hin.
  - rewrite <-list_fmap_compose.
    erewrite list_fmap_ext; [exact Hnd|].
    intros i [k0 v0] _. simpl. by case_decide.
  - by apply js_insert_new_keys.
Qed.

Lemma build_users_keys l : NoDup (build_users l).*1.
Proof.
  unfold build_users.
  cut (∀ users : list (string * string),
         NoDup users.*1 → NoDup (foldl add_user users l).*1).
  { intros H. apply H. constructor. }
  induction l as [|t l IH]; intros users Hu; [done|]. simpl. apply IH.
  unfold add_user. destruct (data_author (data t)) as [a|]; [|done].
  destruct (truthy a); [|done]. by apply js_set_keys.
Qed.

Lemma NoDup_snd_of_fst {A B} (l : list (A * B)) :
  NoDup l.*1 →
  (∀ x y, x ∈ l → y ∈ l → x.2 = y.2 → x.1 = y.1) →
  NoDup l.*2.
Proof.
  induction l as [|[a b] l IH]; simpl; intros Hnd Hinj; [constructor|].
  apply NoDup_cons in Hnd as [Ha Hnd]. apply NoDup_cons. split.
  - intros ([a' b'] & Heq & Hin)%list_elem_of_fmap. simpl in Heq. subst b'.
    apply Ha. apply list_elem_of_fmap. exists (a', b). split; [|done].
    simpl. apply (Hinj (a, b) (a', b)); [left|by right|done].
  - apply IH; [done|]. intros x y Hx Hy. apply Hinj; by right.
Qed.

(** X13.  A roster never lists a name twice and never lists a connection
    twice: the user names of the [online_users] payload computed for a room
    are pairwise distinct, and so are its socket ids. *)
Theorem roster_entries_are_distinct io r :
  wf io →
  NoDup (username <$> presence io r) ∧ NoDup (socketId <$> presence io r).
Proof.
  intros Hwf. unfold presence, entries. rewrite <-!list_fmap_compose.
  change (NoDup (users_of io r).*1 ∧ NoDup (users_of io r).*2).
  split; [apply build_users_keys|].
  apply NoDup_snd_of_fst; [apply build_users_keys|].
  intros [k1 v1] [k2 v2] H1 H2 Hv. simpl in *. subst v2.
  apply build_users_only in H1 as (t1 & Ht1 & Ha1 & _ & Hi1).
  apply build_users_only in H2 as (t2 & Ht2 & Ha2 & _ & Hi2).
  apply fetchSockets_id in Ht1 as [_ Hl1]; [|done].
  apply fetchSockets_id in Ht2 as [_ Hl2]; [|done].
  assert (t1 = t2) as -> by congruence. congruence.
Qed.

Lemma build_users_snoc l t : build_users (l ++ [t]) = add_user (build_users l) t.
Proof. unfold build_users. by rewrite foldl_app. Qed.

Lemma build_users_elem l k v :
  (k, v) ∈ build_users l ↔
  ∃ l1 t l2, l = l1 ++ t :: l2 ∧ data_author (data t) = Some k ∧ id t = v ∧
             truthy k = true ∧ k ≠ "__proto__" ∧
             ∀ t', t' ∈ l2 → data_author (data t') ≠ Some k.
Proof.
  split.
  - induction l as [|t l IH] using rev_ind; [by intros ?%elem_of_nil|].
    rewrite build_users_snoc. unfold add_user at 1.
    assert (Hold : (k, v) ∈ build_users l → data_author (data t) ≠ Some k →
              ∃ l1 t0 l2, l ++ [t] = l1 ++ t0 :: l2 ∧
                data_author (data t0) = Some k ∧ id t0 = v ∧
                truthy k = true ∧ k ≠ "__proto__" ∧
                ∀ t', t' ∈ l2 → data_author (data t') ≠ Some k).
    { intros Hin Hne. destruct (IH Hin) as (l1 & t0 & l2 & -> & ? & ? & ? & ? & Hl2).
      exists l1, t0, (l2 ++ [t]). split; [by rewrite <-app_assoc|].
      repeat (split; [done|]). intros t' [?| ->%list_elem_of_singleton]%elem_of_app;
        [by apply Hl2|done]. }
    destruct (data_author (data t)) as [a|] eqn:Ha; [|intros; by apply Hold].
    destruct (truthy a) eqn:Ht.
    + destruct (decide (a = "__proto__")) as [->|Hp].
      * unfold js_set. rewrite decide_True by done. intros Hin.
        apply Hold; [done|]. intros [= <-]. by apply proto_never_a_key in Hin.
      * rewrite js_set_elem by done. intros [[-> ->]|[Hne Hin]].
        -- exists l, t, []. repeat (split; [done|]). by intros t' ?%elem_of_nil.
        -- apply Hold; [done|congruence].
    + intros Hin. apply Hold; [done|]. intros [= <-].
      destruct (IH Hin) as (_ & _ & _ & _ & _ & _ & Ht' & _). congruence.
  - intros (l1 & t & l2 & -> & Ha & <- & Ht & Hp & Hl2).
    by apply build_users_last.
Qed.

(** X14.  The roster of a room lists exactly the last holders of the
    names: [{username: k, socketId: v}] is in the [online_users] payload
    computed for room [r] if and only if [v] is the id of a fetched socket
    whose author is [k], a truthy name other than ["__proto__"], and no
    socket fetched after it carries the author [k]. *)
Theorem roster_lists_last_holders io r k v :
  {| username := k; socketId := v |} ∈ presence io r ↔
  ∃ l1 t l2,
    fetchSockets io r = l1 ++ t :: l2 ∧
    data_author (data t) = Some k ∧ id t = v ∧
    truthy k = true ∧ k ≠ "__proto__" ∧
    ∀ t', t' ∈ l2 → data_author (data t') ≠ Some k.
Proof.
  unfold presence. rewrite entries_elem. simpl. apply build_users_elem.
Qed.

Lemma roster_entries_are_distinct_witness :
  NoDup (username <$> presence demo_two "general") ∧
  NoDup (socketId <$> presence demo_two "general").
Proof. apply roster_entries_are_distinct. wf_scenario. Defined.

(** ** Joining *)

Lemma server_eq (io1 io2 : Server) :
  (∀ i, sockets io1 !! i = sockets io2 !! i) →
  (∀ r, rooms io1 !! r = rooms io2 !! r) →
  io1 = io2.
Proof.
  destruct io1, io2. simpl. intros H1 H2. f_equal; by apply map_eq.
Qed.

Lemma on_join_room_again io sid r a :
  on_join_room (on_join_room io sid r a).1 sid r a = on_join_room io sid r a.
Proof.
  set (io1 := (on_join_room io sid r a).1).
  assert (Hin : sid ∈ members io1 r).
  { unfold io1. rewrite members_join_same. case_bool_decide; [done|].
    apply elem_of_app. right. by left. }
  assert (Hst : (on_join_room io1 sid r a).1 = io1).
  { apply server_eq.
    - intros i. destruct (decide (i = sid)) as [->|Hne].
      + rewrite sockets_join_self. unfold io1. rewrite sockets_join_self.
        by destruct (sockets io !! sid).
      + by rewrite sockets_join_other.
    - intros r'. simpl. by rewrite bool_decide_eq_true_2. }
  rewrite (surjective_pairing (on_join_room io1 sid r a)).
  rewrite (surjective_pairing (on_join_room io sid r a)).
  f_equal; [done|].
  change ((on_join_room io1 sid r a).2)
    with [in_emit (on_join_room io1 sid r a).1 r
            (online_users (entries (users_of (on_join_room io1 sid r a).1 r)));
          in_emit (on_join_room io1 sid r a).1 r
            (user_joined a sid (users_of (on_join_room io1 sid r a).1 r))].
  by rewrite Hst.
Qed.

Section Joining.

Variable verifyAccessToken : nat → string → bool.

#[local] Abbreviation dispatch := (dispatch verifyAccessToken).
#[local] Abbreviation middleware := (middleware verifyAccessToken).
#[local] Abbreviation run := (run verifyAccessToken).

(** X15.  [join_room] is idempotent: when a connection sends the same
    [join_room] again and is let through again, the namespace stays as the
    first join left it and the same two broadcasts are made again, to the
    same recipients. *)
Theorem join_room_twice now now' io sid s r a :
  sockets io !! sid = Some s →
  middleware now s = true →
  middleware now' s = true →
  ∃ io1 out,
    dispatch now io sid (join_room r a) = (io1, out) ∧
    dispatch now' io1 sid (join_room r a) = (io1, out).
Proof.
  intros Hs Hm Hm'.
  exists (on_join_room io sid r a).1,
         (Handled sid (join_room r a) :: (on_join_room io sid r a).2).
  split; [by erewrite dispatch_accepted|].
  erewrite dispatch_accepted.
  - change (listener ?x sid (join_room r a)) with (on_join_room x sid r a).
    by rewrite on_join_room_again.
  - by rewrite sockets_join_self, Hs.
  - done.
Qed.

(** X16.  A [join_room] changes nothing for the other connections: their
    records are kept, the joiner keeps its id and token, every other room
    keeps its members, and the joined room keeps its members in their order,
    with the joiner added at the end when it was not in the room. *)
Theorem join_room_spares_others now io sid s r a :
  sockets io !! sid = Some s →
  middleware now s = true →
  ∃ io' out,
    dispatch now io sid (join_room r a) = (io', out) ∧
    (∀ i, i ≠ sid → sockets io' !! i = sockets io !! i) ∧
    sockets io' !! sid =
      Some {| id := id s; handshake_token := handshake_token s;
              data := {| data_room := Some r; data_author := Some a |} |} ∧
    (∀ r', r' ≠ r → members io' r' = members io r') ∧
    members io' r = (if bool_decide (sid ∈ members io r) then members io r
                     else members io r ++ [sid]).
Proof.
  intros Hs Hm.
  exists (on_join_room io sid r a).1,
         (Handled sid (join_room r a) :: (on_join_room io sid r a).2).
  split; [by erewrite dispatch_accepted|].
  split; [intros i Hne; by apply sockets_join_other|].
  split; [by rewrite sockets_join_self, Hs|].
  split; [|apply members_join_same].
  intros r' Hne. simpl. rewrite members_set_data, members_addAll.
  by rewrite decide_False.
Qed.

(** X17.  A roster never travels alone: each [online_users] emitted in a
    run is accompanied, in the same run and to the same recipients, by a
    [user_joined] or a [user_left] that carries the [users] object the
    roster lists. *)
Theorem roster_comes_with_its_event tr io rcpts l :
  Emit rcpts (online_users l) ∈ (run io tr).2 →
  ∃ users,
    l = entries users ∧
    ((∃ a sid, Emit rcpts (user_joined a sid users) ∈ (run io tr).2) ∨
     (∃ a, Emit rcpts (user_left a users) ∈ (run io tr).2)).
Proof.
  assert (Hclose : ∀ io sid,
    Emit rcpts (online_users l) ∈ (onclose io sid).2 →
    ∃ users a, l = entries users ∧
               Emit rcpts (user_left a users) ∈ (onclose io sid).2).
  { intros io0 sid. unfold onclose.
    destruct (sockets io0 !! sid) as [s|]; [|by intros ?%elem_of_nil].
    cbn [snd]. unfold on_disconnect.
    destruct (data_room (data s)) as [r|]; [|by intros ?%elem_of_nil].
    destruct (truthy r); [|by intros ?%elem_of_nil].
    unfold in_emit.
    intros [Heq|[Heq|?%elem_of_nil]%elem_of_cons]%elem_of_cons; [|done..].
    simplify_eq. eexists _, _. split; [done|]. right. left. }
  revert io. induction tr as [|i tr IH]; intros io; [by intros ?%elem_of_nil|].
  rewrite run_cons. cbn [snd]. intros [Hin|Hin]%elem_of_app.
  - cut (∃ users, l = entries users ∧
           ((∃ a sid, Emit rcpts (user_joined a sid users)
                        ∈ (step verifyAccessToken io i).2) ∨
            (∃ a, Emit rcpts (user_left a users)
                    ∈ (step verifyAccessToken io i).2))).
    { intros (users & ? & [(a & sid & ?)|(a & ?)]); exists users;
        (split; [done|]); [left; exists a, sid|right; exists a];
        apply elem_of_app; by left. }
    destruct (step_cases verifyAccessToken io i)
      as [(sid' & tok & -> & Hst)|[(now & sid' & ev & s & -> & Hs & Hst)|
          [(now & sid' & ev & s & -> & Hs & Hm & Hst)|[(sid' & -> & Hst)|Hst]]]];
      rewrite Hst in *; cbn [snd] in *.
    + by apply elem_of_nil in Hin.
    + apply elem_of_cons in Hin as [?|Hin]; [done|].
      destruct ev as [r a| | | | | |]; cbn [listener snd] in Hin;
        try (unfold to_emit in Hin; apply list_elem_of_singleton in Hin;
             discriminate).
      unfold on_join_room, in_emit in Hin. cbn [snd] in Hin.
      apply elem_of_cons in Hin as [Heq|[Heq|?%elem_of_nil]%elem_of_cons];
        [|done..].
      simplify_eq. eexists. split; [done|]. left. exists a, sid'.
      right. right. left.
    + apply elem_of_cons in Hin as [?|Hin]; [done|].
      destruct (Hclose _ _ Hin) as (users & a & ? & ?).
      exists users. split; [done|]. right. exists a. by right.
    + destruct (Hclose _ _ Hin) as (users & a & ? & ?).
      exists users. split; [done|]. right. by exists a.
    + by apply elem_of_nil in Hin.
  - destruct (IH _ Hin) as (users & ? & [(a & sid & ?)|(a & ?)]); exists users;
      (split; [done|]); [left; exists a, sid|right; exists a];
      apply elem_of_app; by right.
Qed.

End Joining.

Lemma join_room_twice_witness :
  ∃ io1 out,
    dispatch demo_verify 0 demo_connected "c1" (join_room "general" "alice")
      = (io1, out) ∧
    dispatch demo_verify 1 io1 "c1" (join_room "general" "alice") = (io1, out).
Proof.
  apply (join_room_twice demo_verify 0 1 demo_connected "c1" (demo_fresh "c1")).
  - computed.
  - reflexivity.
  - reflexivity.
Defined.

Lemma join_room_spares_others_witness :
  ∃ io' out,
    dispatch demo_verify 2 demo_two "c1" (join_room "other" "al2") = (io', out) ∧
    (∀ i, i ≠ "c1" → sockets io' !! i = sockets demo_two !! i) ∧
    sockets io' !! "c1" =
      Some {| id := "c1"; handshake_token := Some "good";
              data := {| data_room := Some "other";
                         data_author := Some "al2" |} |} ∧
    (∀ r', r' ≠ "other" → members io' r' = members demo_two r') ∧
    members io' "other" = ["c1"].
Proof.
  apply (join_room_spares_others demo_verify 2 demo_two "c1" demo_alice).
  - computed.
  - reflexivity.
Defined.

Lemma roster_comes_with_its_event_witness :
  ∃ users,
    [{| username := "bob"; socketId := "c2" |}] = entries users ∧
    ((∃ a sid, Emit ["c2"] (user_joined a sid users)
                 ∈ (run demo_verify demo_two [Close "c1"]).2) ∨
     (∃ a, Emit ["c2"] (user_left a users)
             ∈ (run demo_verify demo_two [Close "c1"]).2)).
Proof.
  apply roster_comes_with_its_event.
  vm_compute. apply list_elem_of_here.
Defined.

(** ** Recipients *)

Lemma fetchSockets_join_snoc io sid s r a :
  sockets io !! sid = Some s → sid ∉ members io r →
  fetchSockets (on_join_room io sid r a).1 r =
    fetchSockets io r
    ++ [{| id := id s; handshake_token := handshake_token s;
           data := {| data_room := Some r; data_author := Some a |} |}].
Proof.
  intros Hs Hnew. rewrite !fetchSockets_unfold, members_join_same.
  rewrite bool_decide_eq_false_2 by done. rewrite omap_app.
  cbn [omap list_omap]. rewrite sockets_join_self, Hs. simpl. f_equal.
  apply list_omap_ext. apply Forall2_same_length_lookup_2; [done|].
  intros i x y Hx Hy. simplify_eq. apply sockets_join_other.
  intros ->. apply Hnew. by eapply list_elem_of_lookup_2.
Qed.

Lemma join_room_member io sid r a c :
  c ∈ members (on_join_room io sid r a).1 r → c ∈ members io r ∨ c = sid.
Proof.
  rewrite members_join_same. case_bool_decide; [by left|].
  rewrite elem_of_app, list_elem_of_singleton. done.
Qed.

Section Recipients.

Variable verifyAccessToken : nat → string → bool.

#[local] Abbreviation dispatch := (dispatch verifyAccessToken).
#[local] Abbreviation middleware := (middleware verifyAccessToken).
#[local] Abbreviation step := (step verifyAccessToken).


(** X19.  A first join of a room extends its roster by one assignment: the
    sockets fetched afterwards are those fetched before followed by the
    joiner, so the [users] object of the join is the one of the room before
    with the key [a] set to the joiner's id when [a] is truthy, and is the
    one of the room before when [a] is empty. *)
Theorem first_join_extends_roster now io sid s r a :
  wf io →
  sockets io !! sid = Some s →
  middleware now s = true →
  sid ∉ members io r →
  ∃ io' out,
    dispatch now io sid (join_room r a) = (io', out) ∧
    members io' r = members io r ++ [sid] ∧
    users_of io' r = (if truthy a then js_set a sid (users_of io r)
                      else users_of io r) ∧
    rosters out = [entries (users_of io' r)].
Proof.
  intros Hwf Hs Hm Hnew.
  exists (on_join_room io sid r a).1,
         (Handled sid (join_room r a) :: (on_join_room io sid r a).2).
  split; [by erewrite dispatch_accepted|].
  split; [by rewrite members_join_same, bool_decide_eq_false_2|].
  split; [|done].
  unfold users_of. rewrite (fetchSockets_join_snoc io sid s r a Hs Hnew).
  rewrite build_users_snoc. unfold add_user at 1. simpl.
  by rewrite (wf_id io Hwf sid s Hs).
Qed.

End Recipients.


Lemma first_join_extends_roster_witness :
  ∃ io' out,
    dispatch demo_verify 1 demo_alice_in "c2" (join_room "general" "bob")
      = (io', out) ∧
    members io' "general" = members demo_alice_in "general" ++ ["c2"] ∧
    users_of io' "general" = js_set "bob" "c2" (users_of demo_alice_in "general") ∧
    rosters out = [entries (users_of io' "general")].
Proof.
  apply (first_join_extends_roster demo_verify 1 demo_alice_in "c2"
           (demo_fresh "c2")).
  - wf_scenario.
  - computed.
  - reflexivity.
  - vm_compute. by intros [?|?%elem_of_nil]%elem_of_cons.
Defined.
